(** * The SDF blot and its animation controller

    A shallow embedding of the two classes [SDFBlot] (the shape field) and
    [BlotAnimator] (the sequencer), and the properties of them that the
    specification states.

    Numbers.  A JavaScript number is modelled as a real number: arithmetic is
    exact, and the non-finite values (NaN, the infinities) are not
    represented.  Where the source can produce one of them the model says so
    next to the definition.  Priorities, which the source only ever compares,
    are integers.

    Clock and randomness.  [Date.now()], [Math.random()] and the size of
    the window are inputs of the functions that read them.

    Objects.  The sequencer holds the field it animates, and the driver
    reaches the field through it.  A sequence is passed by value: each call
    of a factory returns a fresh object, and a value here stands for one
    such object, enqueued once.  Properties inherited from
    [Object.prototype] are not part of the lookup tables. *)

From Stdlib Require Import Reals Lra Lia ZArith List String Bool Zfloor.
From Stdlib Require Import Sorting.Sorted Sorting.Permutation.
Import ListNotations.

Open Scope R_scope.

(** ** Numeric primitives of the host language *)

(** [Math.floor] *)
Definition floor (r : R) : Z := Zfloor r.

(** [a < b] and [a > b] as booleans *)
Definition ltb (a b : R) : bool := if Rlt_dec a b then true else false.
Definition gtb (a b : R) : bool := ltb b a.
(** [a >= b] *)
Definition geb (a b : R) : bool := if Rle_dec b a then true else false.
(** [a === b] on numbers *)
Definition eqbR (a b : R) : bool := if Req_dec_T a b then true else false.

(** [Math.atan2(y, x)], by the quadrant of [(x, y)]. *)
Definition atan2 (y x : R) : R :=
  if ltb 0 x then atan (y / x)
  else if ltb x 0 then (if geb y 0 then atan (y / x) + PI else atan (y / x) - PI)
  else if ltb 0 y then PI / 2
  else if ltb y 0 then - (PI / 2)
  else 0.

(** A store into a [Uint8ClampedArray] cell. *)
Definition clamp8 (z : Z) : Z := Z.max 0 (Z.min 255 z).

(** ** The shape field: class [SDFBlot] *)

Module SDFBlot.

(** The canvas, as far as the blot reads it: its size in pixels. *)
Record canvas := { width : nat; height : nat }.

(** The instance fields set by the constructor, and [breathingIntensity],
    which only the animator ever assigns ([None] while it is undefined). *)
Record blot := {
  cv : canvas;
  x : R;
  y : R;
  targetX : R;
  targetY : R;
  time : R;
  state : string;
  animationSpeed : R;
  morphFactor : R;
  targetMorphFactor : R;
  breathingPhase : R;
  pulsePhase : R;
  wigglePhase : R;
  breathingIntensity : option R
}.

(** [constructor(canvas, initialX, initialY)] *)
Definition new (c : canvas) (initialX initialY : R) : blot :=
  {| cv := c; x := initialX; y := initialY;
     targetX := initialX; targetY := initialY;
     time := 0; state := "idle"; animationSpeed := 0.02;
     morphFactor := 0; targetMorphFactor := 0;
     breathingPhase := 0; pulsePhase := 0; wigglePhase := 0;
     breathingIntensity := None |}.

(** *** Smooth minimum *)

Definition sminQuadratic (a b k : R) : R :=
  let k := k * 4 in
  let h := Rmax (k - Rabs (a - b)) 0 / k in
  Rmin a b - h * h * k * (1 / 4).

Definition sminCubic (a b k : R) : R :=
  let k := k * 6 in
  let h := Rmax (k - Rabs (a - b)) 0 / k in
  Rmin a b - h * h * h * k * (1 / 6).

Definition sminCircular (a b k : R) : R :=
  let k := k * (1 / (1 - sqrt 0.5)) in
  let h := Rmax (k - Rabs (a - b)) 0 / k in
  Rmin a b - k * 0.5 * (1 + h - sqrt (1 - h * (h - 2))).

(** *** Distance primitives *)

Definition sdCircle (px py cx cy radius : R) : R :=
  let dx := px - cx in
  let dy := py - cy in
  sqrt (dx * dx + dy * dy) - radius.

(** At the centre of the ellipse the source divides by zero (and gets an
    infinity); the quotient there is outside this model. *)
Definition sdEllipse (px py cx cy rx ry : R) : R :=
  let dx := Rabs (px - cx) in
  let dy := Rabs (py - cy) in
  let a := rx in
  let b := ry in
  let x := dx / a in
  let y := dy / b in
  (a * b) * (sqrt (x * x + y * y) - 1) / sqrt (a * a * y * y + b * b * x * x).

(** *** The field evaluator *)

Definition createBlotSDF (this : blot) (px py time morphFactor : R) : R :=
  let breathingScale := 1 + 0.1 * sin (time * 2 + breathingPhase this) in
  let bodyRadius := 25 * breathingScale in
  let bodyHeight := 30 * breathingScale in
  let mainBody := sdEllipse px py (x this) (y this) bodyRadius bodyHeight in
  let blob2X := x this + 15 * cos (time * 1.5) in
  let blob2Y := y this + 10 * sin (time * 1.2) in
  let blob2Radius := 18 + 5 * sin (time * 3) in
  let secondaryBlob := sdCircle px py blob2X blob2Y blob2Radius in
  let blob3X := x this - 12 * cos (time * 0.8) in
  let blob3Y := y this - 8 * sin (time * 1.8) in
  let blob3Radius := 12 + 3 * cos (time * 2.5) in
  let tertiaryBlob := sdCircle px py blob3X blob3Y blob3Radius in
  let combined := sminCubic mainBody secondaryBlob 15 in
  let combined := sminQuadratic combined tertiaryBlob 12 in
  let combined :=
    if gtb morphFactor 0 then
      let menuRadius := 45 + 10 * morphFactor in
      let menuShape := sdCircle px py (x this) (y this) menuRadius in
      combined * (1 - morphFactor) + menuShape * morphFactor
    else combined in
  let detailNoise := 2 * sin (px * 0.1 + time) * cos (py * 0.1 + time * 1.3) in
  combined + detailNoise * 0.5.

(** *** The rasterizer *)

(** The four bytes written for the pixel [(px, py)].  The image data starts
    as zeros, so a pixel outside, whose alpha alone is assigned, is four
    zeros. *)
Definition renderPixel (this : blot) (px py : nat) : list Z :=
  let distance := createBlotSDF this (INR px) (INR py) (time this) (morphFactor this) in
  if ltb distance 0 then
    let intensity := Rmax 0 (1 + distance / 20) in
    let r := floor (44 * intensity) in
    let g := floor (24 * intensity) in
    let b := floor (16 * intensity) in
    [clamp8 r; clamp8 g; clamp8 b; 255%Z]
  else [0%Z; 0%Z; 0%Z; 0%Z].

(** [renderBlot]: the image data put on the canvas, row by row. *)
Definition renderBlot (this : blot) : list Z :=
  flat_map (fun py => flat_map (fun px => renderPixel this px py)
                               (seq 0 (width (cv this))))
           (seq 0 (height (cv this))).

(** *** Integration, mode and target *)

Definition update (deltaTime : R) (this : blot) : blot :=
  let moveSpeed := 0.08 in
  let morphSpeed := 0.1 in
  {| cv := cv this;
     x := x this + (targetX this - x this) * moveSpeed;
     y := y this + (targetY this - y this) * moveSpeed;
     targetX := targetX this;
     targetY := targetY this;
     time := time this + deltaTime * animationSpeed this;
     state := state this;
     animationSpeed := animationSpeed this;
     morphFactor := morphFactor this + (targetMorphFactor this - morphFactor this) * morphSpeed;
     targetMorphFactor := targetMorphFactor this;
     breathingPhase := breathingPhase this + deltaTime * 0.001;
     pulsePhase := pulsePhase this + deltaTime * 0.002;
     wigglePhase := wigglePhase this + deltaTime * 0.0015;
     breathingIntensity := breathingIntensity this |}.

Definition set_targetMorphFactor (v : R) (this : blot) : blot :=
  {| cv := cv this; x := x this; y := y this;
     targetX := targetX this; targetY := targetY this;
     time := time this; state := state this;
     animationSpeed := animationSpeed this;
     morphFactor := morphFactor this; targetMorphFactor := v;
     breathingPhase := breathingPhase this; pulsePhase := pulsePhase this;
     wigglePhase := wigglePhase this;
     breathingIntensity := breathingIntensity this |}.

Definition set_state (s : string) (this : blot) : blot :=
  {| cv := cv this; x := x this; y := y this;
     targetX := targetX this; targetY := targetY this;
     time := time this; state := s;
     animationSpeed := animationSpeed this;
     morphFactor := morphFactor this; targetMorphFactor := targetMorphFactor this;
     breathingPhase := breathingPhase this; pulsePhase := pulsePhase this;
     wigglePhase := wigglePhase this;
     breathingIntensity := breathingIntensity this |}.

Definition set_morphFactor (v : R) (this : blot) : blot :=
  {| cv := cv this; x := x this; y := y this;
     targetX := targetX this; targetY := targetY this;
     time := time this; state := state this;
     animationSpeed := animationSpeed this;
     morphFactor := v; targetMorphFactor := targetMorphFactor this;
     breathingPhase := breathingPhase this; pulsePhase := pulsePhase this;
     wigglePhase := wigglePhase this;
     breathingIntensity := breathingIntensity this |}.

Definition set_breathingIntensity (v : R) (this : blot) : blot :=
  {| cv := cv this; x := x this; y := y this;
     targetX := targetX this; targetY := targetY this;
     time := time this; state := state this;
     animationSpeed := animationSpeed this;
     morphFactor := morphFactor this; targetMorphFactor := targetMorphFactor this;
     breathingPhase := breathingPhase this; pulsePhase := pulsePhase this;
     wigglePhase := wigglePhase this;
     breathingIntensity := Some v |}.

(** [setState]: the [switch] has three cases and no default. *)
Definition setState (newState : string) (this : blot) : blot :=
  let this := set_state newState this in
  if String.eqb newState "idle" then set_targetMorphFactor 0 this
  else if String.eqb newState "active" then set_targetMorphFactor 0.3 this
  else if String.eqb newState "menu-expanded" then set_targetMorphFactor 1 this
  else this.

Definition moveTo (x' y' : R) (this : blot) : blot :=
  {| cv := cv this; x := x this; y := y this;
     targetX := x'; targetY := y';
     time := time this; state := state this;
     animationSpeed := animationSpeed this;
     morphFactor := morphFactor this; targetMorphFactor := targetMorphFactor this;
     breathingPhase := breathingPhase this; pulsePhase := pulsePhase this;
     wigglePhase := wigglePhase this;
     breathingIntensity := breathingIntensity this |}.

Definition isPointInside (this : blot) (px py : R) : bool :=
  ltb (createBlotSDF this px py (time this) (morphFactor this)) 0.

End SDFBlot.

(** ** The sequencer: class [BlotAnimator] *)

(** An operation either returns or throws a [TypeError] (a property read
    on [undefined]). *)
Inductive result (A : Type) : Type :=
| Ok (a : A)
| TypeError.
Arguments Ok {A} a.
Arguments TypeError {A}.

Definition bind {A B : Type} (r : result A) (f : A -> result B) : result B :=
  match r with
  | Ok a => f a
  | TypeError => TypeError
  end.

Module BlotAnimator.

(** A waypoint [{x, y}]. *)
Record point := { px : R; py : R }.

(** The keys of [easingFunctions]. *)
Inductive easing := linear | easeInOut | easeOut | easeIn | elastic.

Definition easingFunctions (e : easing) (t : R) : R :=
  match e with
  | linear => t
  | easeInOut => if ltb t 0.5 then 2 * t * t else -1 + (4 - 2 * t) * t
  | easeOut => 1 - (1 - t) ^ 3
  | easeIn => t * t * t
  | elastic =>
      if eqbR t 0 || eqbR t 1 then t
      else
        let p := 0.3 in
        let s := p / 4 in
        Rpower 2 (-10 * t) * sin ((t - s) * (2 * PI) / p) + 1
  end.

(** An entry of [animationPresets]. *)
Record preset := {
  breathingIntensity : R;
  wiggleAmount : R;
  pulseFrequency : R
}.

Definition animationPresets (key : string) : option preset :=
  if String.eqb key "idle" then
    Some {| breathingIntensity := 0.05; wiggleAmount := 2; pulseFrequency := 0.8 |}
  else if String.eqb key "active" then
    Some {| breathingIntensity := 0.08; wiggleAmount := 4; pulseFrequency := 1.2 |}
  else if String.eqb key "menuExpanded" then
    Some {| breathingIntensity := 0.03; wiggleAmount := 1; pulseFrequency := 0.6 |}
  else None.

(** The sequence objects, as the three factories build them: a move and a
    morph carry a duration and an easing, a breathing sequence carries
    neither and is the one marked [continuous].  [startTime] is assigned at
    activation and [priority] at enqueueing; until then they are 0 here. *)
Inductive sequence :=
| Move (waypoints : list point) (duration : R) (ease : easing)
       (startTime : R) (priority : Z)
| Morph (fromValue toValue : R) (duration : R) (ease : easing)
        (startTime : R) (priority : Z)
| Breathing (intensity frequency : R) (startTime : R) (priority : Z).

Definition priority (s : sequence) : Z :=
  match s with
  | Move _ _ _ _ p | Morph _ _ _ _ _ p | Breathing _ _ _ p => p
  end.

Definition startTime (s : sequence) : R :=
  match s with
  | Move _ _ _ t _ | Morph _ _ _ _ t _ | Breathing _ _ t _ => t
  end.

Definition continuous (s : sequence) : bool :=
  match s with
  | Breathing _ _ _ _ => true
  | _ => false
  end.

(** [sequence.priority = p] *)
Definition set_priority (p : Z) (s : sequence) : sequence :=
  match s with
  | Move w d e t _ => Move w d e t p
  | Morph f g d e t _ => Morph f g d e t p
  | Breathing i f t _ => Breathing i f t p
  end.

(** [sequence.startTime = t] *)
Definition set_startTime (t : R) (s : sequence) : sequence :=
  match s with
  | Move w d e _ p => Move w d e t p
  | Morph f g d e _ p => Morph f g d e t p
  | Breathing i f _ p => Breathing i f t p
  end.

(** The window, as far as the animator reads it. *)
Record viewport := { innerWidth : R; innerHeight : R }.

Record animator := {
  blot : SDFBlot.blot;
  animationQueue : list sequence;
  isAnimating : bool;
  currentSequence : option sequence
}.

(** [constructor(sdfBlot)] *)
Definition new (b : SDFBlot.blot) : animator :=
  {| blot := b; animationQueue := []; isAnimating := false;
     currentSequence := None |}.

Definition set_blot (b : SDFBlot.blot) (this : animator) : animator :=
  {| blot := b; animationQueue := animationQueue this;
     isAnimating := isAnimating this;
     currentSequence := currentSequence this |}.

(** *** Factories *)

(** [window] is [vp]; [random] is the value [Math.random()] returns if it
    is called.  The default [duration] is 1000. *)
Definition createMoveSequence (vp : viewport) (random : R)
    (targetX targetY avoidX avoidY duration : R) (this : animator) : sequence :=
  let startX := SDFBlot.x (blot this) in
  let startY := SDFBlot.y (blot this) in
  let directDistance := sqrt ((targetX - startX) ^ 2 + (targetY - startY) ^ 2) in
  let mouseDistance := sqrt ((avoidX - startX) ^ 2 + (avoidY - startY) ^ 2) in
  let waypoints := [ {| px := startX; py := startY |} ] in
  let waypoints :=
    if ltb mouseDistance 100 && gtb directDistance 50 then
      let avoidRadius := 120 in
      let angle := atan2 (avoidY - startY) (avoidX - startX) in
      let perpAngle := angle + (if gtb random 0.5 then PI / 2 else - PI / 2) in
      let waypointX := avoidX + cos perpAngle * avoidRadius in
      let waypointY := avoidY + sin perpAngle * avoidRadius in
      let boundedWaypointX := Rmax 60 (Rmin (innerWidth vp - 60) waypointX) in
      let boundedWaypointY := Rmax 60 (Rmin (innerHeight vp - 60) waypointY) in
      waypoints ++ [ {| px := boundedWaypointX; py := boundedWaypointY |} ]
    else waypoints in
  let waypoints := waypoints ++ [ {| px := targetX; py := targetY |} ] in
  Move waypoints duration easeInOut 0 0.

(** The table [morphValues], and [morphValues[key] || 0]. *)
Definition morphValues (key : string) : option R :=
  if String.eqb key "idle" then Some 0
  else if String.eqb key "active" then Some 0.3
  else if String.eqb key "menuExpanded" then Some 1
  else None.

Definition morphValueOr0 (key : string) : R :=
  match morphValues key with
  | Some v => v
  | None => 0
  end.

(** The default [duration] is 800. *)
Definition createMorphSequence (fromState toState : string) (duration : R) : sequence :=
  Morph (morphValueOr0 fromState) (morphValueOr0 toState) duration easeOut 0 0.

(** The defaults are [intensity = 0.05] and [frequency = 0.8]. *)
Definition createBreathingSequence (intensity frequency : R) : sequence :=
  Breathing intensity frequency 0 0.

(** *** The queue *)

(** [Array.prototype.sort] with the comparator
    [(a, b) => b.priority - a.priority]: a stable sort, descending by
    priority. *)
Fixpoint insert (s : sequence) (l : list sequence) : list sequence :=
  match l with
  | [] => [s]
  | h :: t =>
      if (priority s <? priority h)%Z then h :: insert s t else s :: h :: t
  end.

Fixpoint sort (l : list sequence) : list sequence :=
  match l with
  | [] => []
  | h :: t => insert h (sort t)
  end.

(** [now] is the value of [Date.now()]. *)
Definition playNextAnimation (now : R) (this : animator) : animator :=
  match animationQueue this with
  | [] =>
      {| blot := blot this; animationQueue := [];
         isAnimating := false; currentSequence := currentSequence this |}
  | s :: rest =>
      {| blot := blot this; animationQueue := rest;
         isAnimating := true;
         currentSequence := Some (set_startTime now s) |}
  end.

(** The default [priority] is 0. *)
Definition queueAnimation (now : R) (s : sequence) (p : Z) (this : animator) : animator :=
  let s := set_priority p s in
  let this :=
    {| blot := blot this;
       animationQueue := sort (animationQueue this ++ [s]);
       isAnimating := isAnimating this;
       currentSequence := currentSequence this |} in
  if negb (isAnimating this) then playNextAnimation now this else this.

(** *** The per-type updates

    Each takes the fields of [this.currentSequence] it reads as
    arguments, and returns the blot it leaves. *)

(** [a[i]] for a number [i]: [None] is [undefined]. *)
Definition index {A : Type} (a : list A) (i : Z) : option A :=
  if (i <? 0)%Z then None else nth_error a (Z.to_nat i).

Definition updateMoveAnimation (progress : R) (waypoints : list point)
    (b : SDFBlot.blot) : result SDFBlot.blot :=
  if (List.length waypoints <? 2)%nat then Ok b
  else
    let segmentCount := Z.of_nat (List.length waypoints - 1) in
    let segmentProgress := progress * IZR segmentCount in
    let segmentIndex := floor segmentProgress in
    let localProgress := segmentProgress - IZR segmentIndex in
    if (segmentIndex >=? segmentCount)%Z then
      match nth_error waypoints (List.length waypoints - 1) with
      | Some final => Ok (SDFBlot.moveTo (px final) (py final) b)
      | None => TypeError
      end
    else
      match index waypoints segmentIndex, index waypoints (segmentIndex + 1) with
      | Some current, Some next =>
          let x := px current + (px next - px current) * localProgress in
          let y := py current + (py next - py current) * localProgress in
          Ok (SDFBlot.moveTo x y b)
      | _, _ => TypeError
      end.

Definition updateMorphAnimation (progress : R) (fromValue toValue : R)
    (b : SDFBlot.blot) : SDFBlot.blot :=
  let morphValue := fromValue + (toValue - fromValue) * progress in
  SDFBlot.set_morphFactor morphValue b.

Definition updateBreathingAnimation (deltaTime : R) (intensity : R)
    (b : SDFBlot.blot) : SDFBlot.blot :=
  SDFBlot.set_breathingIntensity intensity b.

(** *** The tick *)

(** [this.currentSequence = null; this.playNextAnimation()] *)
Definition retire (now : R) (this : animator) : animator :=
  playNextAnimation now
    {| blot := blot this; animationQueue := animationQueue this;
       isAnimating := isAnimating this; currentSequence := None |}.

(** The end of [update]: [if (progress >= 1 && !continuous)], the active
    sequence is retired; [complete] is the value of [progress >= 1]. *)
Definition finish (now : R) (complete : bool) (s : sequence) (this : animator) : animator :=
  if complete && negb (continuous s) then retire now this else this.

(** [update(deltaTime)], with [now] the value of [Date.now()].  A move or
    a morph has [progress = min(elapsed / duration, 1)] (a duration of zero
    makes the quotient non-finite in the source, and is outside this
    model).  A breathing sequence has no duration: its progress is NaN,
    which its update ignores and for which [progress >= 1] is false. *)
Definition update (deltaTime now : R) (this : animator) : result animator :=
  match currentSequence this with
  | None => Ok this
  | Some s =>
      match s with
      | Move waypoints duration e start _ =>
          let elapsed := now - start in
          let progress := Rmin (elapsed / duration) 1 in
          let easedProgress := easingFunctions e progress in
          bind (updateMoveAnimation easedProgress waypoints (blot this))
            (fun b => Ok (finish now (geb progress 1) s (set_blot b this)))
      | Morph fromValue toValue duration e start _ =>
          let elapsed := now - start in
          let progress := Rmin (elapsed / duration) 1 in
          let easedProgress := easingFunctions e progress in
          Ok (finish now (geb progress 1) s
                (set_blot (updateMorphAnimation easedProgress fromValue toValue (blot this))
                          this))
      | Breathing intensity _ _ _ =>
          Ok (finish now false s
                (set_blot (updateBreathingAnimation deltaTime intensity (blot this)) this))
      end
  end.

(** [transitionToState(newState, targetX, targetY, avoidX, avoidY)]: an
    absent target coordinate ([null]) is [None]. *)
Definition transitionToState (vp : viewport) (random now : R)
    (newState : string) (targetX targetY : option R) (avoidX avoidY : R)
    (this : animator) : animator :=
  let currentState := SDFBlot.state (blot this) in
  let morphSeq := createMorphSequence currentState newState 600 in
  let this := queueAnimation now morphSeq 10 this in
  let this :=
    match targetX, targetY with
    | Some tx, Some ty =>
        let moveSeq := createMoveSequence vp random tx ty avoidX avoidY 800 this in
        queueAnimation now moveSeq 9 this
    | _, _ => this
    end in
  let this := set_blot (SDFBlot.setState newState (blot this)) this in
  match animationPresets newState with
  | Some preset =>
      let breathingSeq :=
        createBreathingSequence (breathingIntensity preset) (pulseFrequency preset) in
      queueAnimation now breathingSeq 1 this
  | None => this
  end.

Definition emergencyStop (this : animator) : animator :=
  {| blot := blot this; animationQueue := [];
     isAnimating := false; currentSequence := None |}.

Definition isMoving (this : animator) : bool :=
  match currentSequence this with
  | Some (Move _ _ _ _ _) => true
  | _ => false
  end.

End BlotAnimator.

(** ** Runs

    The driver calls, once per frame, the sequencer's [update] and then the
    field's [update]. *)

Record frame := { deltaTime : R; now : R }.

Definition tick (f : frame) (a : BlotAnimator.animator) : result BlotAnimator.animator :=
  bind (BlotAnimator.update (deltaTime f) (now f) a)
    (fun a => Ok (BlotAnimator.set_blot
                    (SDFBlot.update (deltaTime f) (BlotAnimator.blot a)) a)).

Fixpoint run_frames (fs : list frame) (a : BlotAnimator.animator)
    : result BlotAnimator.animator :=
  match fs with
  | [] => Ok a
  | f :: fs => bind (tick f a) (run_frames fs)
  end.

(** The calls a client makes on the field alone. *)
Inductive blot_call :=
| CallSetState (mode : string)
| CallMoveTo (x y : R)
| CallUpdate (deltaTime : R).

Definition blot_step (c : blot_call) (b : SDFBlot.blot) : SDFBlot.blot :=
  match c with
  | CallSetState m => SDFBlot.setState m b
  | CallMoveTo x y => SDFBlot.moveTo x y b
  | CallUpdate dt => SDFBlot.update dt b
  end.

Definition blot_run (cs : list blot_call) (b : SDFBlot.blot) : SDFBlot.blot :=
  fold_left (fun b c => blot_step c b) cs b.

(** [n] calls of the field's [update] with one [deltaTime]. *)
Definition updates (deltaTime : R) (n : nat) (b : SDFBlot.blot) : SDFBlot.blot :=
  Nat.iter n (SDFBlot.update deltaTime) b.

(** What it is for the values [u 0], [u 1], ... to approach [target]
    smoothly: the distance never grows, the target is never passed and, from
    a distinct start, never met, and yet every positive distance is
    eventually undercut for good. *)
Definition approaches (u : nat -> R) (target : R) : Prop :=
  (forall n, Rabs (u (S n) - target) <= Rabs (u n - target)) /\
  (u 0%nat <= target -> forall n, u n <= u (S n) <= target) /\
  (target <= u 0%nat -> forall n, target <= u (S n) <= u n) /\
  (u 0%nat <> target -> forall n, u n <> target) /\
  (forall eps, 0 < eps ->
     exists N, forall n, (N <= n)%nat -> Rabs (u n - target) < eps).

(** The blend amount [h] of a smooth minimum whose rescaled radius is
    [k']. *)
Definition blend (a b k' : R) : R := Rmax (k' - Rabs (a - b)) 0 / k'.

(** The side of the detour: [1] when [Math.random() > 0.5], else [-1]. *)
Definition detourSide (random : R) : R := if gtb random 0.5 then 1 else -1.

(** The offset of a coordinate [p] from the centre [c] of an ellipse, in
    units of the radius [r] along that axis: the [x] and [y] of [sdEllipse]. *)
Definition offset (p c r : R) : R := Rabs (p - c) / r.



(** The distance between two waypoints. *)
Definition distance (p q : BlotAnimator.point) : R :=
  sqrt ((BlotAnimator.px p - BlotAnimator.px q) ^ 2
        + (BlotAnimator.py p - BlotAnimator.py q) ^ 2).

(** A point held at least 60 units inside each edge of the window, the way
    [createMoveSequence] bounds its detour. *)
Definition bounded (vp : BlotAnimator.viewport) (p : BlotAnimator.point)
    : BlotAnimator.point :=
  {| BlotAnimator.px :=
       Rmax 60 (Rmin (BlotAnimator.innerWidth vp - 60) (BlotAnimator.px p));
     BlotAnimator.py :=
       Rmax 60 (Rmin (BlotAnimator.innerHeight vp - 60) (BlotAnimator.py p)) |}.

(** Draining the queue: the sequences that are active one after the other
    when every [update] arrives at the instant the active sequence runs
    out (its start time plus its duration). *)
Definition durationOf (s : BlotAnimator.sequence) : R :=
  match s with
  | BlotAnimator.Move _ d _ _ _ | BlotAnimator.Morph _ _ d _ _ _ => d
  | BlotAnimator.Breathing _ _ _ _ => 0
  end.

Definition completionTime (s : BlotAnimator.sequence) : R :=
  BlotAnimator.startTime s + durationOf s.

Fixpoint activations (fuel : nat) (a : BlotAnimator.animator)
    : list BlotAnimator.sequence :=
  match fuel with
  | O => []
  | S fuel =>
      match BlotAnimator.currentSequence a with
      | None => []
      | Some s =>
          s :: match BlotAnimator.update 0 (completionTime s) a with
               | Ok a' => activations fuel a'
               | TypeError => []
               end
      end
  end.

(** A sequence that runs out: not continuous, and of positive duration. *)
Definition finite (s : BlotAnimator.sequence) : Prop :=
  BlotAnimator.continuous s = false /\ 0 < durationOf s.

(** The queued sequences [q] as they are activated one after the other from
    the instant [t] on. *)
Fixpoint schedule (t : R) (q : list BlotAnimator.sequence) : list BlotAnimator.sequence :=
  match q with
  | [] => []
  | s :: q => BlotAnimator.set_startTime t s :: schedule (t + durationOf s) q
  end.

(** The order the comparator of [queueAnimation] sorts by. *)
Definition before (s s' : BlotAnimator.sequence) : Prop :=
  (BlotAnimator.priority s' <= BlotAnimator.priority s)%Z.

(** The queue is in descending order of priority, and is empty whenever the
    sequencer is not animating. *)
Definition orderly (a : BlotAnimator.animator) : Prop :=
  StronglySorted before (BlotAnimator.animationQueue a) /\
  (BlotAnimator.isAnimating a = false -> BlotAnimator.animationQueue a = []).

(** The detour of [createMoveSequence] before it is bounded: 120 away from
    the pointer, a quarter turn off the bearing from the start to the
    pointer, to the side [Math.random()] picks. *)
Definition detourPoint (random startX startY avoidX avoidY : R) : BlotAnimator.point :=
  let angle := atan2 (avoidY - startY) (avoidX - startX) in
  let perpAngle := angle + (if gtb random 0.5 then PI / 2 else - PI / 2) in
  {| BlotAnimator.px := avoidX + cos perpAngle * 120;
     BlotAnimator.py := avoidY + sin perpAngle * 120 |}.

(** The pointer is near the start, and the target far enough, for a
    detour. *)
Definition detours (startX startY targetX targetY avoidX avoidY : R) : Prop :=
  (avoidX - startX) ^ 2 + (avoidY - startY) ^ 2 < 100 * 100 /\
  50 * 50 < (targetX - startX) ^ 2 + (targetY - startY) ^ 2.

(** A request to enqueue: the clock reading at the call, the sequence and
    its priority. *)
Record request := { when : R; what : BlotAnimator.sequence; rank : Z }.

(** The sequence of a request as it stands in the queue. *)
Definition pending (r : request) : BlotAnimator.sequence :=
  BlotAnimator.set_priority (rank r) (what r).

(** [queueAnimation] called for each request in turn. *)
Definition enqueue_all (rs : list request) (a : BlotAnimator.animator)
    : BlotAnimator.animator :=
  fold_left (fun a r => BlotAnimator.queueAnimation (when r) (what r) (rank r) a) rs a.

(** The sequences of priority [p] in a queue, in their order. *)
Definition of_priority (p : Z) (q : list BlotAnimator.sequence)
    : list BlotAnimator.sequence :=
  filter (fun s => (BlotAnimator.priority s =? p)%Z) q.

(** The calls a client makes on the sequencer and, as the driver of the
    frames, on the field it animates. *)
Inductive call :=
| CallSequencerUpdate (deltaTime now : R)
| CallQueueAnimation (now : R) (s : BlotAnimator.sequence) (priority : Z)
| CallTransitionToState (vp : BlotAnimator.viewport) (random now : R)
    (newState : string) (targetX targetY : option R) (avoidX avoidY : R)
| CallEmergencyStop
| CallField (c : blot_call).

Definition step (c : call) (a : BlotAnimator.animator) : result BlotAnimator.animator :=
  match c with
  | CallSequencerUpdate dt now => BlotAnimator.update dt now a
  | CallQueueAnimation now s p => Ok (BlotAnimator.queueAnimation now s p a)
  | CallTransitionToState vp random now newState tx ty ax ay =>
      Ok (BlotAnimator.transitionToState vp random now newState tx ty ax ay a)
  | CallEmergencyStop => Ok (BlotAnimator.emergencyStop a)
  | CallField c => Ok (BlotAnimator.set_blot (blot_step c (BlotAnimator.blot a)) a)
  end.

Fixpoint run (cs : list call) (a : BlotAnimator.animator) : result BlotAnimator.animator :=
  match cs with
  | [] => Ok a
  | c :: cs => bind (step c a) (run cs)
  end.

(** The sequencer with nothing active, all its other state as it is. *)
Definition inactive (a : BlotAnimator.animator) : BlotAnimator.animator :=
  {| BlotAnimator.blot := BlotAnimator.blot a;
     BlotAnimator.animationQueue := BlotAnimator.animationQueue a;
     BlotAnimator.isAnimating := false;
     BlotAnimator.currentSequence := None |}.

(** The field with its [breathingIntensity] property removed: all its other
    state. *)
Definition without_intensity (b : SDFBlot.blot) : SDFBlot.blot :=
  {| SDFBlot.cv := SDFBlot.cv b; SDFBlot.x := SDFBlot.x b; SDFBlot.y := SDFBlot.y b;
     SDFBlot.targetX := SDFBlot.targetX b; SDFBlot.targetY := SDFBlot.targetY b;
     SDFBlot.time := SDFBlot.time b; SDFBlot.state := SDFBlot.state b;
     SDFBlot.animationSpeed := SDFBlot.animationSpeed b;
     SDFBlot.morphFactor := SDFBlot.morphFactor b;
     SDFBlot.targetMorphFactor := SDFBlot.targetMorphFactor b;
     SDFBlot.breathingPhase := SDFBlot.breathingPhase b;
     SDFBlot.pulsePhase := SDFBlot.pulsePhase b;
     SDFBlot.wigglePhase := SDFBlot.wigglePhase b;
     SDFBlot.breathingIntensity := None |}.

(** From [a] to [a'] the active sequence [s] is kept, and the queue has
    only gained. *)
Definition held (s : BlotAnimator.sequence) (a a' : BlotAnimator.animator) : Prop :=
  BlotAnimator.currentSequence a' = Some s /\
  BlotAnimator.isAnimating a' = true /\
  exists added,
    Permutation (BlotAnimator.animationQueue a') (BlotAnimator.animationQueue a ++ added).

(** [isAnimating] says whether a sequence is active. *)
Definition consistent (a : BlotAnimator.animator) : Prop :=
  BlotAnimator.isAnimating a = true <-> BlotAnimator.currentSequence a <> None.

(** The sequences [transitionToState] enqueues, as far as the morph factor
    is concerned: a morph runs from 0 to 1 under [easeOut], a move is eased
    by [easeInOut]. *)
Definition tame (s : BlotAnimator.sequence) : Prop :=
  match s with
  | BlotAnimator.Move _ _ e _ _ => e = BlotAnimator.easeInOut
  | BlotAnimator.Morph f g _ e _ _ => f = 0 /\ g = 1 /\ e = BlotAnimator.easeOut
  | BlotAnimator.Breathing _ _ _ _ => True
  end.

(** The target morph factor is 0, the morph factor at most 1, and every
    sequence, active or queued, is tame. *)
Definition pulled_back (a : BlotAnimator.animator) : Prop :=
  SDFBlot.targetMorphFactor (BlotAnimator.blot a) = 0 /\
  SDFBlot.morphFactor (BlotAnimator.blot a) <= 1 /\
  (forall s, BlotAnimator.currentSequence a = Some s -> tame s) /\
  Forall tame (BlotAnimator.animationQueue a).

(** The scenario of the specification: a field created at (100,100), so idle
    and with morph factor 0, and the transition to ["menuExpanded"] with
    the target (300,300) and the pointer at (0,0), at the instant [t0]. *)
Definition scenario (c : SDFBlot.canvas) (vp : BlotAnimator.viewport) (random t0 : R)
    : BlotAnimator.animator :=
  BlotAnimator.transitionToState vp random t0 "menuExpanded" (Some 300) (Some 300) 0 0
    (BlotAnimator.new (SDFBlot.new c 100 100)).

(** Both morph factors lie in the unit interval. *)
Definition unit_morph (b : SDFBlot.blot) : Prop :=
  0 <= SDFBlot.morphFactor b <= 1 /\ 0 <= SDFBlot.targetMorphFactor b <= 1.

(** ** Properties *)

(** *** Comparisons *)

Lemma ltb_true (a b : R) : a < b -> ltb a b = true.
Proof. intros H. unfold ltb. destruct (Rlt_dec a b); [reflexivity | contradiction]. Qed.

Lemma ltb_false (a b : R) : b <= a -> ltb a b = false.
Proof. intros H. unfold ltb. destruct (Rlt_dec a b); [lra | reflexivity]. Qed.

Lemma geb_true (a b : R) : b <= a -> geb a b = true.
Proof. intros H. unfold geb. destruct (Rle_dec b a); [reflexivity | contradiction]. Qed.

Lemma geb_false (a b : R) : a < b -> geb a b = false.
Proof. intros H. unfold geb. destruct (Rle_dec b a); [lra | reflexivity]. Qed.

Lemma gtb_true (a b : R) : b < a -> gtb a b = true.
Proof. apply ltb_true. Qed.

Lemma gtb_false (a b : R) : a <= b -> gtb a b = false.
Proof. apply ltb_false. Qed.


(** *** Sample evaluations *)

Example sminQuadratic_of_equals : SDFBlot.sminQuadratic 0 0 1 = -1.
Proof.
  unfold SDFBlot.sminQuadratic. cbv zeta.
  replace (0 - 0) with 0 by lra. rewrite Rabs_R0, Rmin_left, Rmax_left by lra.
  field.
Qed.

Example sdCircle_outside : SDFBlot.sdCircle 3 4 0 0 2 = 3.
Proof.
  unfold SDFBlot.sdCircle. cbv zeta.
  replace ((3 - 0) * (3 - 0) + (4 - 0) * (4 - 0)) with (5 * 5) by lra.
  rewrite sqrt_square by lra. lra.
Qed.

Example update_first_step :
  let b := SDFBlot.moveTo 100 50
             (SDFBlot.new {| SDFBlot.width := 4; SDFBlot.height := 4 |} 0 0) in
  SDFBlot.x (SDFBlot.update 16 b) = 8 /\
  SDFBlot.y (SDFBlot.update 16 b) = 4 /\
  SDFBlot.time (SDFBlot.update 16 b) = 0.32.
Proof. simpl. repeat split; lra. Qed.

Example easeInOut_midway :
  BlotAnimator.easingFunctions BlotAnimator.easeInOut 0.5 = 0.5.
Proof. simpl. rewrite ltb_false by lra. lra. Qed.

Example easeOut_midway :
  BlotAnimator.easingFunctions BlotAnimator.easeOut 0.5 = 0.875.
Proof. simpl. lra. Qed.

Example move_at_middle_waypoint :
  let b := SDFBlot.new {| SDFBlot.width := 4; SDFBlot.height := 4 |} 0 0 in
  let p0 := {| BlotAnimator.px := 0; BlotAnimator.py := 0 |} in
  let p1 := {| BlotAnimator.px := 60; BlotAnimator.py := 120 |} in
  let p2 := {| BlotAnimator.px := 200; BlotAnimator.py := 0 |} in
  exists b',
    BlotAnimator.updateMoveAnimation 0.5 [p0; p1; p2] b = Ok b' /\
    SDFBlot.targetX b' = 60 /\ SDFBlot.targetY b' = 120.
Proof.
  cbv zeta. unfold BlotAnimator.updateMoveAnimation.
  change (List.length _ <? 2)%nat with false. cbv iota zeta.
  change (Z.of_nat _) with 2%Z.
  assert (Hf : floor (0.5 * 2) = 1%Z) by (apply Zfloor_eq; simpl; lra).
  rewrite Hf. simpl. eexists. split; [reflexivity|]. simpl. split; lra.
Qed.

Example morph_sequence_to_menu :
  BlotAnimator.createMorphSequence "idle" "menuExpanded" 600
  = BlotAnimator.Morph 0 1 600 BlotAnimator.easeOut 0 0.
Proof. reflexivity. Qed.

(** *** The mode table of [setState] *)

Section SetState.

Import SDFBlot.

Variable b : blot.

Lemma setState_idle : targetMorphFactor (setState "idle" b) = 0.
Proof. reflexivity. Qed.

Lemma setState_active : targetMorphFactor (setState "active" b) = 0.3.
Proof. reflexivity. Qed.

Lemma setState_menu_expanded : targetMorphFactor (setState "menu-expanded" b) = 1.
Proof. reflexivity. Qed.

Lemma setState_other (m : string) :
  m <> "idle"%string -> m <> "active"%string -> m <> "menu-expanded"%string ->
  setState m b = set_state m b.
Proof.
  intros Hi Ha Hm. unfold setState.
  apply String.eqb_neq in Hi, Ha, Hm. rewrite Hi, Ha, Hm. reflexivity.
Qed.

Lemma setState_morphFactor (m : string) :
  morphFactor (setState m b) = morphFactor b.
Proof.
  unfold setState.
  destruct (m =? "idle")%string; [reflexivity|].
  destruct (m =? "active")%string; [reflexivity|].
  destruct (m =? "menu-expanded")%string; reflexivity.
Qed.

Lemma setState_state (m : string) : state (setState m b) = m.
Proof.
  unfold setState.
  destruct (m =? "idle")%string; [reflexivity|].
  destruct (m =? "active")%string; [reflexivity|].
  destruct (m =? "menu-expanded")%string; reflexivity.
Qed.

End SetState.

(** C3, as the specification words it, fails: the key of the third row is
    the hyphenated ["menu-expanded"], so [setState("menuExpanded")] leaves
    the target morph factor of a fresh field at 0, not at 1. *)
Lemma setState_menuExpanded_unchanged :
  let b := SDFBlot.new {| SDFBlot.width := 4; SDFBlot.height := 4 |} 0 0 in
  SDFBlot.targetMorphFactor (SDFBlot.setState "menuExpanded" b) = 0 /\
  SDFBlot.targetMorphFactor (SDFBlot.setState "menuExpanded" b) <> 1.
Proof. simpl. split; [reflexivity | lra]. Qed.

(** C3, amended: [setState(m)] assigns [targetMorphFactor] by the table
    idle -> 0, active -> 0.3, menu-expanded -> 1, and for every string
    outside this table leaves it unchanged; it records [m] as the state and
    never touches the current morph factor. *)
Theorem setState_table (m : string) (b : SDFBlot.blot) :
  (m = "idle"%string -> SDFBlot.targetMorphFactor (SDFBlot.setState m b) = 0) /\
  (m = "active"%string -> SDFBlot.targetMorphFactor (SDFBlot.setState m b) = 0.3) /\
  (m = "menu-expanded"%string -> SDFBlot.targetMorphFactor (SDFBlot.setState m b) = 1) /\
  (m <> "idle"%string -> m <> "active"%string -> m <> "menu-expanded"%string ->
     SDFBlot.targetMorphFactor (SDFBlot.setState m b) = SDFBlot.targetMorphFactor b) /\
  SDFBlot.state (SDFBlot.setState m b) = m /\
  SDFBlot.morphFactor (SDFBlot.setState m b) = SDFBlot.morphFactor b.
Proof.
  repeat split.
  - intros ->. apply setState_idle.
  - intros ->. apply setState_active.
  - intros ->. apply setState_menu_expanded.
  - intros Hi Ha Hm. rewrite setState_other by assumption. reflexivity.
  - apply setState_state.
  - apply setState_morphFactor.
Qed.

(** *** The smooth minimum *)

Section SmoothMinimum.

Variables a b k : R.
Hypothesis k_pos : 0 < k.

Lemma blend_range (k' : R) : 0 < k' -> 0 <= blend a b k' <= 1.
Proof.
  intros Hk. unfold blend.
  assert (Ha : 0 <= Rabs (a - b)) by apply Rabs_pos.
  assert (Hm : 0 <= Rmax (k' - Rabs (a - b)) 0 <= k').
  { unfold Rmax. destruct (Rle_dec (k' - Rabs (a - b)) 0); lra. }
  split.
  - apply Rmult_le_pos; [lra | left; apply Rinv_0_lt_compat; exact Hk].
  - apply Rmult_le_reg_r with k'; [exact Hk|].
    unfold Rdiv. rewrite Rmult_assoc, Rinv_l by lra. lra.
Qed.

Lemma blend_zero (k' : R) : k' <= Rabs (a - b) -> blend a b k' = 0.
Proof.
  intros Hw. unfold blend.
  rewrite Rmax_right by lra. unfold Rdiv. apply Rmult_0_l.
Qed.

Lemma sqrt_half_lt_1 : sqrt 0.5 < 1.
Proof.
  apply Rlt_le_trans with (sqrt 1).
  - apply sqrt_lt_1; lra.
  - rewrite sqrt_1. apply Rle_refl.
Qed.

Lemma circular_radius_pos : 0 < k * (1 / (1 - sqrt 0.5)).
Proof.
  pose proof sqrt_half_lt_1 as Hs.
  apply Rmult_lt_0_compat; [exact k_pos|].
  apply Rdiv_lt_0_compat; lra.
Qed.

Lemma circular_term_nonneg (t : R) :
  0 <= t <= 1 -> 0 <= 1 + t - sqrt (1 - t * (t - 2)).
Proof.
  intros Ht.
  assert (Hle : sqrt (1 - t * (t - 2)) <= sqrt ((1 + t) * (1 + t))).
  { apply sqrt_le_1; nra. }
  rewrite sqrt_square in Hle by lra. lra.
Qed.

Lemma sminQuadratic_le : SDFBlot.sminQuadratic a b k <= Rmin a b.
Proof.
  unfold SDFBlot.sminQuadratic. cbv zeta.
  destruct (blend_range (k * 4)) as [H0 H1]; [lra|]. fold (blend a b (k * 4)).
  assert (0 <= blend a b (k * 4) * blend a b (k * 4)) by nra.
  nra.
Qed.

Lemma sminCubic_le : SDFBlot.sminCubic a b k <= Rmin a b.
Proof.
  unfold SDFBlot.sminCubic. cbv zeta.
  destruct (blend_range (k * 6)) as [H0 H1]; [lra|]. fold (blend a b (k * 6)).
  assert (0 <= blend a b (k * 6) * blend a b (k * 6)) by nra.
  assert (0 <= blend a b (k * 6) * blend a b (k * 6) * blend a b (k * 6)) by nra.
  nra.
Qed.

Lemma sminCircular_le : SDFBlot.sminCircular a b k <= Rmin a b.
Proof.
  unfold SDFBlot.sminCircular. cbv zeta.
  pose proof circular_radius_pos as Hk.
  set (k' := k * (1 / (1 - sqrt 0.5))) in *.
  fold (blend a b k').
  pose proof (circular_term_nonneg (blend a b k') (blend_range k' Hk)) as Ht.
  nra.
Qed.

Lemma sminQuadratic_min : k * 4 <= Rabs (a - b) -> SDFBlot.sminQuadratic a b k = Rmin a b.
Proof.
  intros Hw. unfold SDFBlot.sminQuadratic. cbv zeta.
  fold (blend a b (k * 4)). rewrite blend_zero by exact Hw. lra.
Qed.

Lemma sminCubic_min : k * 6 <= Rabs (a - b) -> SDFBlot.sminCubic a b k = Rmin a b.
Proof.
  intros Hw. unfold SDFBlot.sminCubic. cbv zeta.
  fold (blend a b (k * 6)). rewrite blend_zero by exact Hw. lra.
Qed.

Lemma sminCircular_min :
  k * (1 / (1 - sqrt 0.5)) <= Rabs (a - b) -> SDFBlot.sminCircular a b k = Rmin a b.
Proof.
  intros Hw. unfold SDFBlot.sminCircular. cbv zeta.
  fold (blend a b (k * (1 / (1 - sqrt 0.5)))). rewrite blend_zero by exact Hw.
  replace (1 - 0 * (0 - 2)) with 1 by lra. rewrite sqrt_1. lra.
Qed.

End SmoothMinimum.

(** C4: for all [a], [b] and every [k > 0], each of the three smooth
    minima is at most [min(a, b)], and is exactly [min(a, b)] once
    [|a - b|] is at least the variant's blend width: [k] times 4 for the
    quadratic, 6 for the cubic and [1 / (1 - sqrt 0.5)] for the circular
    one. *)
Theorem smin_below_min (a b k : R) (k_pos : 0 < k) :
  (SDFBlot.sminQuadratic a b k <= Rmin a b /\
   SDFBlot.sminCubic a b k <= Rmin a b /\
   SDFBlot.sminCircular a b k <= Rmin a b) /\
  (k * 4 <= Rabs (a - b) -> SDFBlot.sminQuadratic a b k = Rmin a b) /\
  (k * 6 <= Rabs (a - b) -> SDFBlot.sminCubic a b k = Rmin a b) /\
  (k * (1 / (1 - sqrt 0.5)) <= Rabs (a - b) -> SDFBlot.sminCircular a b k = Rmin a b).
Proof.
  repeat split.
  - apply sminQuadratic_le; exact k_pos.
  - apply sminCubic_le; exact k_pos.
  - apply sminCircular_le; exact k_pos.
  - apply sminQuadratic_min.
  - apply sminCubic_min.
  - apply sminCircular_min.
Qed.

Lemma smin_below_min_example :
  SDFBlot.sminQuadratic 0 10 1 = Rmin 0 10 /\
  SDFBlot.sminCubic 0 10 1 = Rmin 0 10 /\
  SDFBlot.sminCircular 0 10 1 <= Rmin 0 10.
Proof.
  assert (Hw : Rabs (0 - 10) = 10).
  { rewrite Rabs_left by lra. lra. }
  destruct (smin_below_min 0 10 1 Rlt_0_1) as [[_ [_ Hc]] [Hq [Hb _]]].
  repeat split.
  - apply Hq. rewrite Hw. lra.
  - apply Hb. rewrite Hw. lra.
  - exact Hc.
Defined.

(** *** Exponential smoothing *)

Section Smoothing.

(** A sequence that moves by the fraction [rate] of what separates it from
    [target] at every step. *)
Variables (u : nat -> R) (target rate : R).
Hypothesis rate_range : 0 < rate < 1.
Hypothesis step : forall n, u (S n) = u n + (target - u n) * rate.

Lemma smoothing_gap (n : nat) : u (S n) - target = (1 - rate) * (u n - target).
Proof. rewrite step. ring. Qed.

Lemma smoothing_closed_form (n : nat) :
  u n - target = (1 - rate) ^ n * (u 0%nat - target).
Proof.
  induction n as [|n IH].
  - simpl. ring.
  - rewrite smoothing_gap, IH. simpl. ring.
Qed.

Lemma smoothing_below (n : nat) : u 0%nat <= target -> u n <= target.
Proof.
  intros H0. induction n as [|n IH]; [exact H0|].
  pose proof (smoothing_gap n). nra.
Qed.

Lemma smoothing_above (n : nat) : target <= u 0%nat -> target <= u n.
Proof.
  intros H0. induction n as [|n IH]; [exact H0|].
  pose proof (smoothing_gap n). nra.
Qed.

Lemma smoothing_never_meets (n : nat) : u 0%nat <> target -> u n <> target.
Proof.
  intros H0. induction n as [|n IH]; [exact H0|].
  intros Heq. pose proof (smoothing_gap n) as Hg.
  rewrite Heq in Hg.
  assert (Hz : (1 - rate) * (u n - target) = 0) by lra.
  apply Rmult_integral in Hz. destruct Hz; [lra | apply IH; lra].
Qed.

Lemma smoothing_within (eps : R) :
  0 < eps -> exists N, forall n, (N <= n)%nat -> Rabs (u n - target) < eps.
Proof.
  intros Heps.
  set (d := Rabs (u 0%nat - target)).
  assert (Hd : 0 <= d) by apply Rabs_pos.
  destruct (pow_lt_1_zero (1 - rate)) with (y := eps / (d + 1)) as [N HN].
  - rewrite Rabs_right; lra.
  - apply Rdiv_lt_0_compat; lra.
  - exists N. intros n Hn.
    rewrite smoothing_closed_form, Rabs_mult. fold d.
    specialize (HN n Hn).
    assert (Hp : 0 <= Rabs ((1 - rate) ^ n)) by apply Rabs_pos.
    apply Rle_lt_trans with (Rabs ((1 - rate) ^ n) * (d + 1)); [nra|].
    apply Rmult_lt_reg_r with (/ (d + 1)).
    + apply Rinv_0_lt_compat; lra.
    + rewrite Rmult_assoc, Rinv_r by lra. rewrite Rmult_1_r. exact HN.
Qed.

Lemma smoothing_approaches : approaches u target.
Proof.
  unfold approaches. split; [|split; [|split; [|split]]].
  - intros n. rewrite smoothing_gap, Rabs_mult.
    rewrite (Rabs_right (1 - rate)) by lra.
    pose proof (Rabs_pos (u n - target)). nra.
  - intros H n. pose proof (smoothing_below n H).
    pose proof (smoothing_below (S n) H). rewrite step in *. nra.
  - intros H n. pose proof (smoothing_above n H).
    pose proof (smoothing_above (S n) H). rewrite step in *. nra.
  - intros H n. apply smoothing_never_meets. exact H.
  - apply smoothing_within.
Qed.

End Smoothing.

Section FieldUpdate.

Variables (deltaTime : R) (b : SDFBlot.blot).

Lemma updates_S (n : nat) :
  updates deltaTime (S n) b = SDFBlot.update deltaTime (updates deltaTime n b).
Proof. reflexivity. Qed.

Lemma updates_targets (n : nat) :
  SDFBlot.targetX (updates deltaTime n b) = SDFBlot.targetX b /\
  SDFBlot.targetY (updates deltaTime n b) = SDFBlot.targetY b /\
  SDFBlot.targetMorphFactor (updates deltaTime n b) = SDFBlot.targetMorphFactor b.
Proof.
  induction n as [|n IH]; [repeat split|].
  rewrite updates_S. simpl. exact IH.
Qed.

End FieldUpdate.

(** C5: whatever the starting position and morph factor and whatever the
    fixed targets, under repeated [update] calls with one [deltaTime] the
    targets stay put, [x] and [y] move by 0.08 and [morphFactor] by 0.1 of
    the remaining distance, and each of the three approaches its target:
    the distance never grows, the target is never passed and never met from
    a distinct start, and any [eps > 0] is undercut after finitely many
    steps. *)
Theorem update_converges (deltaTime : R) (b : SDFBlot.blot) :
  (forall n,
     SDFBlot.targetX (updates deltaTime n b) = SDFBlot.targetX b /\
     SDFBlot.targetY (updates deltaTime n b) = SDFBlot.targetY b /\
     SDFBlot.targetMorphFactor (updates deltaTime n b) = SDFBlot.targetMorphFactor b) /\
  (SDFBlot.x (SDFBlot.update deltaTime b)
     = SDFBlot.x b + (SDFBlot.targetX b - SDFBlot.x b) * 0.08 /\
   SDFBlot.y (SDFBlot.update deltaTime b)
     = SDFBlot.y b + (SDFBlot.targetY b - SDFBlot.y b) * 0.08 /\
   SDFBlot.morphFactor (SDFBlot.update deltaTime b)
     = SDFBlot.morphFactor b
       + (SDFBlot.targetMorphFactor b - SDFBlot.morphFactor b) * 0.1) /\
  approaches (fun n => SDFBlot.x (updates deltaTime n b)) (SDFBlot.targetX b) /\
  approaches (fun n => SDFBlot.y (updates deltaTime n b)) (SDFBlot.targetY b) /\
  approaches (fun n => SDFBlot.morphFactor (updates deltaTime n b))
             (SDFBlot.targetMorphFactor b).
Proof.
  split; [apply updates_targets|].
  split; [repeat split|].
  split; [|split].
  - apply smoothing_approaches with (rate := 0.08); [lra|].
    intros n. rewrite updates_S. simpl.
    destruct (updates_targets deltaTime b n) as [-> _]. reflexivity.
  - apply smoothing_approaches with (rate := 0.08); [lra|].
    intros n. rewrite updates_S. simpl.
    destruct (updates_targets deltaTime b n) as [_ [-> _]]. reflexivity.
  - apply smoothing_approaches with (rate := 0.1); [lra|].
    intros n. rewrite updates_S. simpl.
    destruct (updates_targets deltaTime b n) as [_ [_ ->]]. reflexivity.
Qed.

(** *** The unit interval of the morph factors *)

Lemma setState_unit_morph (m : string) (b : SDFBlot.blot) :
  unit_morph b -> unit_morph (SDFBlot.setState m b).
Proof.
  intros [Hm Ht]. unfold unit_morph.
  rewrite setState_morphFactor. split; [exact Hm|].
  unfold SDFBlot.setState.
  destruct (m =? "idle")%string; [simpl; lra|].
  destruct (m =? "active")%string; [simpl; lra|].
  destruct (m =? "menu-expanded")%string; simpl; lra.
Qed.

Lemma update_unit_morph (dt : R) (b : SDFBlot.blot) :
  unit_morph b -> unit_morph (SDFBlot.update dt b).
Proof.
  intros [Hm Ht]. unfold unit_morph. simpl. lra.
Qed.

Lemma blot_run_unit_morph (cs : list blot_call) (b : SDFBlot.blot) :
  unit_morph b -> unit_morph (blot_run cs b).
Proof.
  revert b. induction cs as [|c cs IH]; intros b Hb; [exact Hb|].
  unfold blot_run. simpl. apply IH.
  destruct c; [apply setState_unit_morph | | apply update_unit_morph]; exact Hb.
Qed.

(** C8: from [morphFactor = 0] and [targetMorphFactor = 0], after any
    interleaving of [setState] calls (with the valid modes, or indeed any
    string) and [update] calls, and of [moveTo] calls besides, both stay
    within [0, 1]. *)
Theorem morph_factors_in_unit_interval (cs : list blot_call) (b : SDFBlot.blot) :
  SDFBlot.morphFactor b = 0 ->
  SDFBlot.targetMorphFactor b = 0 ->
  0 <= SDFBlot.morphFactor (blot_run cs b) <= 1 /\
  0 <= SDFBlot.targetMorphFactor (blot_run cs b) <= 1.
Proof.
  intros Hm Ht. apply blot_run_unit_morph.
  unfold unit_morph. rewrite Hm, Ht. lra.
Qed.

Lemma morph_factors_in_unit_interval_example :
  let b := SDFBlot.new {| SDFBlot.width := 4; SDFBlot.height := 4 |} 100 100 in
  let cs := [CallSetState "menu-expanded"; CallUpdate 16; CallSetState "active";
             CallMoveTo 300 300; CallUpdate 16; CallUpdate 16; CallSetState "idle"] in
  0 <= SDFBlot.morphFactor (blot_run cs b) <= 1 /\
  0 <= SDFBlot.targetMorphFactor (blot_run cs b) <= 1.
Proof.
  apply morph_factors_in_unit_interval; reflexivity.
Defined.

(** *** Easing *)

Lemma eqbR_refl (r : R) : eqbR r r = true.
Proof. unfold eqbR. destruct (Req_dec_T r r); [reflexivity | contradiction]. Qed.

Lemma easing_at_1 (e : BlotAnimator.easing) : BlotAnimator.easingFunctions e 1 = 1.
Proof.
  destruct e; simpl.
  - reflexivity.
  - rewrite ltb_false by lra. lra.
  - lra.
  - lra.
  - rewrite eqbR_refl, orb_true_r. reflexivity.
Qed.

Lemma easeInOut_nonneg (t : R) :
  t <= 1 -> 0 <= BlotAnimator.easingFunctions BlotAnimator.easeInOut t.
Proof.
  intros Ht. simpl. unfold ltb.
  destruct (Rlt_dec t 0.5); nra.
Qed.

Lemma easeOut_le_1 (t : R) :
  t <= 1 -> BlotAnimator.easingFunctions BlotAnimator.easeOut t <= 1.
Proof.
  intros Ht. simpl.
  assert (0 <= (1 - t) * (1 - t)) by nra. nra.
Qed.

(** *** The move update *)

Section MoveUpdate.

Import BlotAnimator.

Lemma nth_error_last {A : Type} (l : list A) (d : A) :
  l <> [] -> nth_error l (List.length l - 1) = Some (last l d).
Proof.
  induction l as [|h t IH]; [contradiction|]. intros _.
  destruct t as [|h' t']; [reflexivity|].
  change (last (h :: h' :: t') d) with (last (h' :: t') d).
  rewrite <- IH by discriminate.
  simpl. rewrite Nat.sub_0_r. reflexivity.
Qed.

Lemma updateMoveAnimation_short (progress : R) (waypoints : list point) (b : SDFBlot.blot) :
  (List.length waypoints < 2)%nat ->
  updateMoveAnimation progress waypoints b = Ok b.
Proof.
  intros Hn. unfold updateMoveAnimation.
  apply Nat.ltb_lt in Hn. rewrite Hn. reflexivity.
Qed.

Lemma updateMoveAnimation_end (waypoints : list point) (d : point) (b : SDFBlot.blot) :
  (2 <= List.length waypoints)%nat ->
  updateMoveAnimation 1 waypoints b
  = Ok (SDFBlot.moveTo (px (last waypoints d)) (py (last waypoints d)) b).
Proof.
  intros Hn. unfold updateMoveAnimation.
  assert (Hlt : (List.length waypoints <? 2)%nat = false) by (apply Nat.ltb_ge; exact Hn).
  rewrite Hlt. cbv zeta.
  rewrite Rmult_1_l. unfold floor. rewrite ZfloorZ.
  assert (Hge : (Z.of_nat (List.length waypoints - 1) >=? Z.of_nat (List.length waypoints - 1))%Z = true)
    by (apply Z.geb_le; lia).
  rewrite Hge.
  rewrite (nth_error_last waypoints d); [reflexivity|].
  destruct waypoints; [simpl in Hn; lia | discriminate].
Qed.

End MoveUpdate.

(** C7, as the specification words it, fails for a single waypoint: the
    move update returns before writing anything when there are fewer than
    two waypoints, so at progress 1 the target of a fresh field at (0,0)
    stays (0,0) and does not become the waypoint (5,7). *)
Lemma single_waypoint_not_written :
  let b := SDFBlot.new {| SDFBlot.width := 4; SDFBlot.height := 4 |} 0 0 in
  let final := {| BlotAnimator.px := 5; BlotAnimator.py := 7 |} in
  BlotAnimator.updateMoveAnimation 1 [final] b = Ok b /\
  SDFBlot.targetX b <> BlotAnimator.px final /\
  SDFBlot.targetY b <> BlotAnimator.py final.
Proof.
  cbv zeta. split; [reflexivity|]. simpl. split; lra.
Qed.

(** C7, amended: for every move sequence with at least two waypoints, when
    the progress is 1 (and so is its eased value, under each of the five
    easings) the move update writes exactly the final waypoint's
    coordinates to the field's target position, and nothing else of the
    field; with fewer than two waypoints it writes nothing. *)
Theorem move_reaches_final_waypoint
    (e : BlotAnimator.easing) (waypoints : list BlotAnimator.point)
    (d : BlotAnimator.point) (b : SDFBlot.blot) :
  ((2 <= List.length waypoints)%nat ->
   exists b',
     BlotAnimator.updateMoveAnimation (BlotAnimator.easingFunctions e 1) waypoints b = Ok b' /\
     SDFBlot.targetX b' = BlotAnimator.px (last waypoints d) /\
     SDFBlot.targetY b' = BlotAnimator.py (last waypoints d) /\
     b' = SDFBlot.moveTo (SDFBlot.targetX b') (SDFBlot.targetY b') b) /\
  ((List.length waypoints < 2)%nat ->
   BlotAnimator.updateMoveAnimation (BlotAnimator.easingFunctions e 1) waypoints b = Ok b).
Proof.
  rewrite easing_at_1. split.
  - intros Hn. eexists. split; [apply (updateMoveAnimation_end waypoints d b Hn)|].
    repeat split.
  - apply updateMoveAnimation_short.
Qed.

Lemma move_reaches_final_waypoint_example :
  let b := SDFBlot.new {| SDFBlot.width := 4; SDFBlot.height := 4 |} 0 0 in
  let p0 := {| BlotAnimator.px := 0; BlotAnimator.py := 0 |} in
  let p1 := {| BlotAnimator.px := 60; BlotAnimator.py := 120 |} in
  let p2 := {| BlotAnimator.px := 200; BlotAnimator.py := 0 |} in
  exists b',
    BlotAnimator.updateMoveAnimation
      (BlotAnimator.easingFunctions BlotAnimator.easeInOut 1) [p0; p1; p2] b = Ok b' /\
    SDFBlot.targetX b' = 200 /\
    SDFBlot.targetY b' = 0 /\
    b' = SDFBlot.moveTo (SDFBlot.targetX b') (SDFBlot.targetY b') b.
Proof.
  cbv zeta.
  refine (proj1 (move_reaches_final_waypoint BlotAnimator.easeInOut
                   [ {| BlotAnimator.px := 0; BlotAnimator.py := 0 |};
                     {| BlotAnimator.px := 60; BlotAnimator.py := 120 |};
                     {| BlotAnimator.px := 200; BlotAnimator.py := 0 |} ]
                   {| BlotAnimator.px := 0; BlotAnimator.py := 0 |}
                   (SDFBlot.new {| SDFBlot.width := 4; SDFBlot.height := 4 |} 0 0)) _).
  simpl. lia.
Defined.

(** *** The avoidance detour *)

Section Detour.

Import BlotAnimator.

Lemma sqrt_of_square (d e r : R) : 0 <= r -> d ^ 2 + e ^ 2 = r * r -> sqrt (d ^ 2 + e ^ 2) = r.
Proof.
  intros Hr Heq. rewrite Heq. apply sqrt_square. exact Hr.
Qed.

Lemma atan2_ahead (x : R) : 0 < x -> atan2 0 x = 0.
Proof.
  intros Hx. unfold atan2. rewrite ltb_true by exact Hx.
  unfold Rdiv. rewrite Rmult_0_l. apply atan_0.
Qed.

Lemma quarter_turn_left : cos (0 + PI / 2) = 0 /\ sin (0 + PI / 2) = 1.
Proof.
  rewrite Rplus_0_l. split; [apply cos_PI2 | apply sin_PI2].
Qed.

Lemma quarter_turn_right : cos (0 + - PI / 2) = 0 /\ sin (0 + - PI / 2) = -1.
Proof.
  replace (0 + - PI / 2) with (- (PI / 2)) by lra.
  rewrite cos_neg, sin_neg, cos_PI2, sin_PI2. split; reflexivity.
Qed.

(** The scenario of the specification: the field at (0,0), the target
    (200,0), the pointer at (50,0).  The waypoints are the start, the
    bounded image of the point (50, 120) or (50, -120), and the target. *)
Lemma detour_waypoints (vp : viewport) (random duration : R) (a : animator) :
  SDFBlot.x (blot a) = 0 -> SDFBlot.y (blot a) = 0 ->
  createMoveSequence vp random 200 0 50 0 duration a
  = Move [ {| px := 0; py := 0 |};
           bounded vp {| px := 50; py := detourSide random * 120 |};
           {| px := 200; py := 0 |} ] duration easeInOut 0 0.
Proof.
  intros Hx Hy. unfold createMoveSequence. rewrite Hx, Hy. cbv zeta.
  rewrite (sqrt_of_square (200 - 0) (0 - 0) 200) by lra.
  rewrite (sqrt_of_square (50 - 0) (0 - 0) 50) by lra.
  rewrite ltb_true, gtb_true by lra. simpl andb. cbv iota.
  replace (50 - 0) with 50 by lra. replace (0 - 0) with 0 by lra.
  rewrite atan2_ahead by lra.
  unfold bounded, detourSide. simpl px. simpl py.
  destruct (gtb random 0.5).
  - destruct quarter_turn_left as [-> ->].
    replace (50 + 0 * 120) with 50 by lra.
    replace (0 + 1 * 120) with (1 * 120) by lra. reflexivity.
  - destruct quarter_turn_right as [-> ->].
    replace (50 + 0 * 120) with 50 by lra.
    replace (0 + -1 * 120) with (-1 * 120) by lra. reflexivity.
Qed.

Lemma detour_unbounded_distance (random : R) :
  distance {| px := 50; py := detourSide random * 120 |} {| px := 50; py := 0 |} = 120.
Proof.
  unfold distance, detourSide. simpl px. simpl py.
  apply sqrt_of_square; [lra|].
  destruct (gtb random 0.5); ring.
Qed.

Lemma detour_bounded (vp : viewport) (random : R) :
  120 <= innerWidth vp -> 180 <= innerHeight vp ->
  bounded vp {| px := 50; py := detourSide random * 120 |}
  = if gtb random 0.5 then {| px := 60; py := 120 |} else {| px := 60; py := 60 |}.
Proof.
  intros Hw Hh. unfold bounded, detourSide. simpl px. simpl py.
  destruct (gtb random 0.5).
  - replace (1 * 120) with 120 by lra. f_equal.
    + rewrite Rmin_right by lra. apply Rmax_left. lra.
    + rewrite Rmin_right by lra. apply Rmax_right. lra.
  - replace (-1 * 120) with (-120) by lra. f_equal.
    + rewrite Rmin_right by lra. apply Rmax_left. lra.
    + rewrite Rmin_right by lra. apply Rmax_left. lra.
Qed.

Lemma sqrt_not (v r : R) : 0 <= v -> 0 <= r -> v <> r * r -> sqrt v <> r.
Proof.
  intros Hv Hr Hne Heq. apply Hne.
  rewrite <- Heq. symmetry. apply sqrt_sqrt. exact Hv.
Qed.

Lemma detour_high_distance :
  distance {| px := 60; py := 120 |} {| px := 50; py := 0 |} <> 120.
Proof.
  unfold distance. simpl px. simpl py. apply sqrt_not; lra.
Qed.

Lemma detour_low_distance :
  distance {| px := 60; py := 60 |} {| px := 50; py := 0 |} <> 120.
Proof.
  unfold distance. simpl px. simpl py. apply sqrt_not; lra.
Qed.

End Detour.

(** C6, as the specification words it, fails: in a 1280 x 720 window, with
    [Math.random()] returning 0.75, the middle waypoint is (60,120), the
    point (50,120) pushed to the left bound 60, and its distance from the
    pointer (50,0) is not 120. *)
Lemma detour_not_at_avoid_radius :
  let a := BlotAnimator.new (SDFBlot.new {| SDFBlot.width := 4; SDFBlot.height := 4 |} 0 0) in
  let vp := {| BlotAnimator.innerWidth := 1280; BlotAnimator.innerHeight := 720 |} in
  let middle := {| BlotAnimator.px := 60; BlotAnimator.py := 120 |} in
  BlotAnimator.createMoveSequence vp 0.75 200 0 50 0 1000 a
  = BlotAnimator.Move [ {| BlotAnimator.px := 0; BlotAnimator.py := 0 |}; middle;
                        {| BlotAnimator.px := 200; BlotAnimator.py := 0 |} ]
                      1000 BlotAnimator.easeInOut 0 0 /\
  distance middle {| BlotAnimator.px := 50; BlotAnimator.py := 0 |} <> 120.
Proof.
  cbv zeta. split; [|apply detour_high_distance].
  rewrite detour_waypoints by reflexivity.
  rewrite detour_bounded by (simpl; lra).
  rewrite gtb_true by lra. reflexivity.
Qed.

(** C6, amended: with the field at (0,0), [createMoveSequence(200, 0, 50,
    0, duration)] returns three waypoints, the start, a middle one and the
    target.  The middle waypoint is the point at distance 120 from the
    pointer (50,0) on the perpendicular through it, (50,120) or (50,-120)
    by the random side, held at least 60 units inside each edge of the
    window: in a window at least 120 wide and 180 high it is (60,120) or
    (60,60), which is within those bounds but not at distance 120 from
    the pointer. *)
Theorem detour_through_bounded_waypoint
    (vp : BlotAnimator.viewport) (random duration : R) (a : BlotAnimator.animator) :
  SDFBlot.x (BlotAnimator.blot a) = 0 ->
  SDFBlot.y (BlotAnimator.blot a) = 0 ->
  120 <= BlotAnimator.innerWidth vp ->
  180 <= BlotAnimator.innerHeight vp ->
  let avoid := {| BlotAnimator.px := 50; BlotAnimator.py := 0 |} in
  exists detour middle,
    BlotAnimator.createMoveSequence vp random 200 0 50 0 duration a
    = BlotAnimator.Move [ {| BlotAnimator.px := 0; BlotAnimator.py := 0 |}; middle;
                          {| BlotAnimator.px := 200; BlotAnimator.py := 0 |} ]
                        duration BlotAnimator.easeInOut 0 0 /\
    distance detour avoid = 120 /\
    middle = bounded vp detour /\
    middle = (if gtb random 0.5
              then {| BlotAnimator.px := 60; BlotAnimator.py := 120 |}
              else {| BlotAnimator.px := 60; BlotAnimator.py := 60 |}) /\
    60 <= BlotAnimator.px middle <= BlotAnimator.innerWidth vp - 60 /\
    60 <= BlotAnimator.py middle <= BlotAnimator.innerHeight vp - 60 /\
    distance middle avoid <> 120.
Proof.
  intros Hx Hy Hw Hh avoid.
  exists {| BlotAnimator.px := 50; BlotAnimator.py := detourSide random * 120 |}.
  eexists. split; [apply detour_waypoints; assumption|].
  split; [apply detour_unbounded_distance|].
  split; [reflexivity|].
  rewrite detour_bounded by assumption.
  split; [reflexivity|].
  destruct (gtb random 0.5); simpl BlotAnimator.px; simpl BlotAnimator.py.
  - repeat split; try lra. apply detour_high_distance.
  - repeat split; try lra. apply detour_low_distance.
Qed.

Lemma detour_through_bounded_waypoint_example :
  let a := BlotAnimator.new (SDFBlot.new {| SDFBlot.width := 4; SDFBlot.height := 4 |} 0 0) in
  let vp := {| BlotAnimator.innerWidth := 1280; BlotAnimator.innerHeight := 720 |} in
  let avoid := {| BlotAnimator.px := 50; BlotAnimator.py := 0 |} in
  exists detour middle,
    BlotAnimator.createMoveSequence vp 0.25 200 0 50 0 1000 a
    = BlotAnimator.Move [ {| BlotAnimator.px := 0; BlotAnimator.py := 0 |}; middle;
                          {| BlotAnimator.px := 200; BlotAnimator.py := 0 |} ]
                        1000 BlotAnimator.easeInOut 0 0 /\
    distance detour avoid = 120 /\
    middle = bounded vp detour /\
    middle = (if gtb 0.25 0.5
              then {| BlotAnimator.px := 60; BlotAnimator.py := 120 |}
              else {| BlotAnimator.px := 60; BlotAnimator.py := 60 |}) /\
    60 <= BlotAnimator.px middle <= BlotAnimator.innerWidth vp - 60 /\
    60 <= BlotAnimator.py middle <= BlotAnimator.innerHeight vp - 60 /\
    distance middle avoid <> 120.
Proof.
  cbv zeta.
  apply (detour_through_bounded_waypoint
           {| BlotAnimator.innerWidth := 1280; BlotAnimator.innerHeight := 720 |}
           0.25 1000
           (BlotAnimator.new (SDFBlot.new {| SDFBlot.width := 4; SDFBlot.height := 4 |} 0 0)));
    simpl; lra.
Defined.

(** *** The queue *)

Section Queue.

Import BlotAnimator.

Lemma priority_set_priority (p : Z) (s : sequence) : priority (set_priority p s) = p.
Proof. destruct s; reflexivity. Qed.

Lemma priority_set_startTime (t : R) (s : sequence) : priority (set_startTime t s) = priority s.
Proof. destruct s; reflexivity. Qed.

Lemma startTime_set_startTime (t : R) (s : sequence) : startTime (set_startTime t s) = t.
Proof. destruct s; reflexivity. Qed.

Lemma durationOf_set_startTime (t : R) (s : sequence) :
  durationOf (set_startTime t s) = durationOf s.
Proof. destruct s; reflexivity. Qed.

Lemma durationOf_set_priority (p : Z) (s : sequence) :
  durationOf (set_priority p s) = durationOf s.
Proof. destruct s; reflexivity. Qed.

Lemma continuous_set_startTime (t : R) (s : sequence) :
  continuous (set_startTime t s) = continuous s.
Proof. destruct s; reflexivity. Qed.

Lemma continuous_set_priority (p : Z) (s : sequence) :
  continuous (set_priority p s) = continuous s.
Proof. destruct s; reflexivity. Qed.

Lemma finite_set_startTime (t : R) (s : sequence) : finite s -> finite (set_startTime t s).
Proof.
  unfold finite. rewrite continuous_set_startTime, durationOf_set_startTime. tauto.
Qed.

Lemma finite_set_priority (p : Z) (s : sequence) : finite s -> finite (set_priority p s).
Proof.
  unfold finite. rewrite continuous_set_priority, durationOf_set_priority. tauto.
Qed.

Lemma completionTime_set_startTime (t : R) (s : sequence) :
  completionTime (set_startTime t s) = t + durationOf s.
Proof.
  unfold completionTime. rewrite startTime_set_startTime, durationOf_set_startTime.
  reflexivity.
Qed.

(** The sort is a stable sort: it permutes the queue, orders it by
    descending priority, and keeps the sequences of any one priority in the
    order they had. *)

Lemma insert_perm (s : sequence) (l : list sequence) : Permutation (s :: l) (insert s l).
Proof.
  induction l as [|h t IH]; simpl; [apply Permutation_refl|].
  destruct (priority s <? priority h)%Z; [|apply Permutation_refl].
  apply perm_trans with (h :: s :: t); [apply perm_swap | apply perm_skip, IH].
Qed.

Lemma sort_perm (l : list sequence) : Permutation l (sort l).
Proof.
  induction l as [|h t IH]; simpl; [apply perm_nil|].
  apply perm_trans with (h :: sort t); [apply perm_skip, IH | apply insert_perm].
Qed.

Lemma insert_sorted (s : sequence) (l : list sequence) :
  StronglySorted before l -> StronglySorted before (insert s l).
Proof.
  induction 1 as [|h t Hs IH Hall]; simpl.
  - constructor; constructor.
  - destruct (priority s <? priority h)%Z eqn:Hlt.
    + constructor; [exact IH|].
      apply Forall_forall. intros y Hy.
      apply (Permutation_in _ (Permutation_sym (insert_perm s t))) in Hy.
      destruct Hy as [<- | Hy].
      * unfold before. apply Z.ltb_lt in Hlt. lia.
      * rewrite Forall_forall in Hall. apply Hall, Hy.
    + apply Z.ltb_ge in Hlt.
      constructor; [constructor; assumption|].
      constructor; [exact Hlt|].
      apply Forall_forall. intros y Hy.
      rewrite Forall_forall in Hall. specialize (Hall y Hy).
      unfold before in *. lia.
Qed.

Lemma sort_sorted (l : list sequence) : StronglySorted before (sort l).
Proof.
  induction l as [|h t IH]; simpl; [constructor | apply insert_sorted, IH].
Qed.

Lemma insert_stable (p : Z) (s : sequence) (l : list sequence) :
  StronglySorted before l ->
  filter (fun x => (priority x =? p)%Z) (insert s l)
  = filter (fun x => (priority x =? p)%Z) (s :: l).
Proof.
  induction 1 as [|h t Hs IH Hall]; [reflexivity|].
  simpl insert. destruct (priority s <? priority h)%Z eqn:Hlt; [|reflexivity].
  apply Z.ltb_lt in Hlt.
  change (filter (fun x => (priority x =? p)%Z) (h :: insert s t))
    with (if (priority h =? p)%Z
          then h :: filter (fun x => (priority x =? p)%Z) (insert s t)
          else filter (fun x => (priority x =? p)%Z) (insert s t)).
  rewrite IH. simpl.
  destruct (priority s =? p)%Z eqn:Hs', (priority h =? p)%Z eqn:Hh; try reflexivity.
  apply Z.eqb_eq in Hs', Hh. lia.
Qed.

Lemma sort_stable (p : Z) (l : list sequence) :
  filter (fun x => (priority x =? p)%Z) (sort l)
  = filter (fun x => (priority x =? p)%Z) l.
Proof.
  induction l as [|h t IH]; [reflexivity|].
  simpl sort. rewrite insert_stable by apply sort_sorted.
  simpl. rewrite IH. reflexivity.
Qed.

(** Enqueueing on a busy and on an idle sequencer. *)

Lemma queueAnimation_busy (now : R) (s : sequence) (p : Z) (a : animator) :
  isAnimating a = true ->
  queueAnimation now s p a
  = {| blot := blot a;
       animationQueue := sort (animationQueue a ++ [set_priority p s]);
       isAnimating := true;
       currentSequence := currentSequence a |}.
Proof.
  intros Hb. unfold queueAnimation. simpl. rewrite Hb. reflexivity.
Qed.

Lemma queueAnimation_idle (now : R) (s : sequence) (p : Z) (a : animator) :
  isAnimating a = false ->
  queueAnimation now s p a
  = playNextAnimation now
      {| blot := blot a;
         animationQueue := sort (animationQueue a ++ [set_priority p s]);
         isAnimating := false;
         currentSequence := currentSequence a |}.
Proof.
  intros Hb. unfold queueAnimation. simpl. rewrite Hb. reflexivity.
Qed.

(** An [update] at the instant the active sequence runs out retires it. *)
Lemma update_at_completion (dt : R) (a : animator) (s : sequence) :
  currentSequence a = Some s -> finite s ->
  exists b, update dt (completionTime s) a = Ok (retire (completionTime s) (set_blot b a)).
Proof.
  intros Hc [Hn Hd]. unfold update. rewrite Hc.
  destruct s as [w d e st pr | f g d e st pr | i f st pr]; simpl in Hn, Hd;
    [| | discriminate].
  - unfold completionTime. simpl startTime. simpl durationOf.
    replace (st + d - st) with d by lra.
    unfold Rdiv. rewrite Rinv_r by lra. rewrite Rmin_left by lra.
    rewrite easing_at_1, geb_true by lra.
    destruct (Nat.lt_ge_cases (List.length w) 2) as [Hs | Hl].
    + rewrite updateMoveAnimation_short by exact Hs. simpl. eexists. reflexivity.
    + rewrite (updateMoveAnimation_end w {| px := 0; py := 0 |}) by exact Hl.
      simpl. eexists. reflexivity.
  - unfold completionTime. simpl startTime. simpl durationOf.
    replace (st + d - st) with d by lra.
    unfold Rdiv. rewrite Rinv_r by lra. rewrite Rmin_left by lra.
    rewrite geb_true by lra. eexists. reflexivity.
Qed.

Lemma activations_drain (q : list sequence) :
  forall (a : animator) (s : sequence),
    currentSequence a = Some s -> animationQueue a = q ->
    finite s -> Forall finite q ->
    activations (S (List.length q)) a = s :: schedule (completionTime s) q.
Proof.
  induction q as [|h q IH]; intros a s Hc Hq Hs Hall.
  - simpl. rewrite Hc. destruct (update 0 (completionTime s) a); reflexivity.
  - change (activations (S (List.length (h :: q))) a)
      with (match currentSequence a with
            | None => []
            | Some s =>
                s :: match update 0 (completionTime s) a with
                     | Ok a' => activations (S (List.length q)) a'
                     | TypeError => []
                     end
            end).
    rewrite Hc.
    destruct (update_at_completion 0 a s Hc Hs) as [b ->].
    inversion Hall as [|? ? Hh Hq']; subst.
    rewrite (IH _ (set_startTime (completionTime s) h)).
    + rewrite completionTime_set_startTime. reflexivity.
    + unfold retire, playNextAnimation. simpl. rewrite Hq. reflexivity.
    + unfold retire, playNextAnimation. simpl. rewrite Hq. reflexivity.
    + apply finite_set_startTime, Hh.
    + exact Hq'.
Qed.

End Queue.

Section ActivationOrder.

Import BlotAnimator.

Variables (t1 t2 t3 : R) (sa sb sc : sequence).

(** The sequencer after the enqueueings. *)
Lemma enqueued_5_10_1_idle (b : SDFBlot.blot) :
  queueAnimation t3 sc 1 (queueAnimation t2 sb 10 (queueAnimation t1 sa 5 (new b)))
  = {| blot := b;
       animationQueue := [set_priority 10 sb; set_priority 1 sc];
       isAnimating := true;
       currentSequence := Some (set_startTime t1 (set_priority 5 sa)) |}.
Proof.
  rewrite (queueAnimation_idle t1) by reflexivity.
  unfold playNextAnimation. simpl.
  rewrite (queueAnimation_busy t2) by reflexivity. simpl.
  rewrite (queueAnimation_busy t3) by reflexivity. simpl.
  rewrite !priority_set_priority. reflexivity.
Qed.

Lemma enqueued_5_10_1_busy (a : animator) :
  isAnimating a = true -> animationQueue a = [] ->
  queueAnimation t3 sc 1 (queueAnimation t2 sb 10 (queueAnimation t1 sa 5 a))
  = {| blot := blot a;
       animationQueue := [set_priority 10 sb; set_priority 5 sa; set_priority 1 sc];
       isAnimating := true;
       currentSequence := currentSequence a |}.
Proof.
  intros Hb Hq.
  rewrite (queueAnimation_busy t1) by exact Hb. rewrite Hq. simpl.
  rewrite (queueAnimation_busy t2) by reflexivity. simpl.
  rewrite !priority_set_priority. simpl.
  rewrite (queueAnimation_busy t3) by reflexivity. simpl.
  repeat (rewrite !priority_set_priority; simpl). reflexivity.
Qed.

Lemma enqueued_equal_idle (p : Z) (b : SDFBlot.blot) :
  queueAnimation t2 sb p (queueAnimation t1 sa p (new b))
  = {| blot := b;
       animationQueue := [set_priority p sb];
       isAnimating := true;
       currentSequence := Some (set_startTime t1 (set_priority p sa)) |}.
Proof.
  rewrite (queueAnimation_idle t1) by reflexivity.
  unfold playNextAnimation. simpl.
  rewrite (queueAnimation_busy t2) by reflexivity. reflexivity.
Qed.

Lemma enqueued_equal_busy (p : Z) (a : animator) :
  isAnimating a = true -> animationQueue a = [] ->
  queueAnimation t2 sb p (queueAnimation t1 sa p a)
  = {| blot := blot a;
       animationQueue := [set_priority p sa; set_priority p sb];
       isAnimating := true;
       currentSequence := currentSequence a |}.
Proof.
  intros Hb Hq.
  rewrite (queueAnimation_busy t1) by exact Hb. rewrite Hq. simpl.
  rewrite (queueAnimation_busy t2) by reflexivity. simpl.
  rewrite !priority_set_priority, Z.ltb_irrefl. reflexivity.
Qed.

Hypotheses (finite_a : finite sa) (finite_b : finite sb) (finite_c : finite sc).

(** On an idle sequencer the first sequence enqueued is promoted at once,
    whatever its priority, and the other two wait behind it. *)
Lemma enqueue_5_10_1_idle (b : SDFBlot.blot) :
  activations 3
    (queueAnimation t3 sc 1 (queueAnimation t2 sb 10 (queueAnimation t1 sa 5 (new b))))
  = [ set_startTime t1 (set_priority 5 sa);
      set_startTime (t1 + durationOf sa) (set_priority 10 sb);
      set_startTime (t1 + durationOf sa + durationOf sb) (set_priority 1 sc) ].
Proof.
  rewrite enqueued_5_10_1_idle.
  rewrite (activations_drain [set_priority 10 sb; set_priority 1 sc] _
             (set_startTime t1 (set_priority 5 sa))); try reflexivity.
  - simpl. rewrite completionTime_set_startTime, !durationOf_set_priority. reflexivity.
  - apply finite_set_startTime, finite_set_priority, finite_a.
  - repeat constructor; apply finite_set_priority; assumption.
Qed.

(** Behind a sequence that is already active the three are activated by
    descending priority. *)
Lemma enqueue_5_10_1_busy (a : animator) (s0 : sequence) :
  currentSequence a = Some s0 -> isAnimating a = true -> animationQueue a = [] ->
  finite s0 ->
  activations 4
    (queueAnimation t3 sc 1 (queueAnimation t2 sb 10 (queueAnimation t1 sa 5 a)))
  = [ s0;
      set_startTime (completionTime s0) (set_priority 10 sb);
      set_startTime (completionTime s0 + durationOf sb) (set_priority 5 sa);
      set_startTime (completionTime s0 + durationOf sb + durationOf sa) (set_priority 1 sc) ].
Proof.
  intros Hc Hb Hq H0.
  rewrite enqueued_5_10_1_busy by assumption.
  rewrite (activations_drain
             [set_priority 10 sb; set_priority 5 sa; set_priority 1 sc] _ s0);
    try reflexivity; try assumption.
  - simpl. rewrite !durationOf_set_priority. reflexivity.
  - repeat constructor; apply finite_set_priority; assumption.
Qed.

(** Two sequences of one priority are activated in the order they were
    enqueued, on an idle sequencer and behind an active sequence alike. *)
Lemma enqueue_equal_idle (p : Z) (b : SDFBlot.blot) :
  activations 2 (queueAnimation t2 sb p (queueAnimation t1 sa p (new b)))
  = [ set_startTime t1 (set_priority p sa);
      set_startTime (t1 + durationOf sa) (set_priority p sb) ].
Proof.
  rewrite enqueued_equal_idle.
  rewrite (activations_drain [set_priority p sb] _
             (set_startTime t1 (set_priority p sa))); try reflexivity.
  - simpl. rewrite completionTime_set_startTime, !durationOf_set_priority. reflexivity.
  - apply finite_set_startTime, finite_set_priority, finite_a.
  - repeat constructor; apply finite_set_priority; assumption.
Qed.

Lemma enqueue_equal_busy (p : Z) (a : animator) (s0 : sequence) :
  currentSequence a = Some s0 -> isAnimating a = true -> animationQueue a = [] ->
  finite s0 ->
  activations 3 (queueAnimation t2 sb p (queueAnimation t1 sa p a))
  = [ s0;
      set_startTime (completionTime s0) (set_priority p sa);
      set_startTime (completionTime s0 + durationOf sa) (set_priority p sb) ].
Proof.
  intros Hc Hb Hq H0.
  rewrite enqueued_equal_busy by assumption.
  rewrite (activations_drain [set_priority p sa; set_priority p sb] _ s0);
    try reflexivity; try assumption.
  - simpl. rewrite !durationOf_set_priority. reflexivity.
  - repeat constructor; apply finite_set_priority; assumption.
Qed.

End ActivationOrder.

(** C2, as the specification words it, fails on a fresh sequencer: three
    morph sequences enqueued with priorities 5, 10 and 1 are activated in
    the order 5, 10, 1, because the first one enqueued finds nothing
    animating and is promoted at once. *)
Lemma first_enqueued_runs_first :
  let a := BlotAnimator.new (SDFBlot.new {| SDFBlot.width := 4; SDFBlot.height := 4 |} 0 0) in
  let sa := BlotAnimator.createMorphSequence "idle" "active" 800 in
  let sb := BlotAnimator.createMorphSequence "active" "menuExpanded" 600 in
  let sc := BlotAnimator.createMorphSequence "menuExpanded" "idle" 400 in
  let a := BlotAnimator.queueAnimation 0 sa 5 a in
  let a := BlotAnimator.queueAnimation 0 sb 10 a in
  let a := BlotAnimator.queueAnimation 0 sc 1 a in
  activations 3 a
  = [ BlotAnimator.Morph 0 0.3 800 BlotAnimator.easeOut 0 5;
      BlotAnimator.Morph 0.3 1 600 BlotAnimator.easeOut (0 + 800) 10;
      BlotAnimator.Morph 1 0 400 BlotAnimator.easeOut (0 + 800 + 600) 1 ] /\
  map BlotAnimator.priority (activations 3 a) <> [10; 5; 1]%Z.
Proof.
  cbv zeta.
  rewrite (enqueue_5_10_1_idle 0 0 0).
  - split; [reflexivity | discriminate].
  - split; [reflexivity | simpl; lra].
  - split; [reflexivity | simpl; lra].
  - split; [reflexivity | simpl; lra].
Qed.

(** C2, amended: sequences enqueued with priorities 5, 10, 1 in that order
    behind a sequence that is already active are activated, as the queue
    drains, in the order 10, 5, 1; on an idle sequencer the first one
    enqueued is promoted at once, and the order is 5, 10, 1.  Two
    sequences enqueued with one priority are activated in the order they
    were enqueued, in both situations. *)
Theorem queue_activation_order
    (t1 t2 t3 : R) (sa sb sc s0 : BlotAnimator.sequence)
    (b : SDFBlot.blot) (a : BlotAnimator.animator) (p : Z) :
  finite sa -> finite sb -> finite sc -> finite s0 ->
  BlotAnimator.currentSequence a = Some s0 ->
  BlotAnimator.isAnimating a = true ->
  BlotAnimator.animationQueue a = [] ->
  let enqueue3 a :=
    BlotAnimator.queueAnimation t3 sc 1
      (BlotAnimator.queueAnimation t2 sb 10 (BlotAnimator.queueAnimation t1 sa 5 a)) in
  let enqueue2 a :=
    BlotAnimator.queueAnimation t2 sb p (BlotAnimator.queueAnimation t1 sa p a) in
  let T0 := completionTime s0 in
  (activations 4 (enqueue3 a)
   = [ s0;
       BlotAnimator.set_startTime T0 (BlotAnimator.set_priority 10 sb);
       BlotAnimator.set_startTime (T0 + durationOf sb) (BlotAnimator.set_priority 5 sa);
       BlotAnimator.set_startTime (T0 + durationOf sb + durationOf sa)
                                  (BlotAnimator.set_priority 1 sc) ] /\
   map BlotAnimator.priority (tl (activations 4 (enqueue3 a))) = [10; 5; 1]%Z) /\
  (activations 3 (enqueue3 (BlotAnimator.new b))
   = [ BlotAnimator.set_startTime t1 (BlotAnimator.set_priority 5 sa);
       BlotAnimator.set_startTime (t1 + durationOf sa) (BlotAnimator.set_priority 10 sb);
       BlotAnimator.set_startTime (t1 + durationOf sa + durationOf sb)
                                  (BlotAnimator.set_priority 1 sc) ] /\
   map BlotAnimator.priority (activations 3 (enqueue3 (BlotAnimator.new b)))
   = [5; 10; 1]%Z) /\
  activations 3 (enqueue2 a)
  = [ s0;
      BlotAnimator.set_startTime T0 (BlotAnimator.set_priority p sa);
      BlotAnimator.set_startTime (T0 + durationOf sa) (BlotAnimator.set_priority p sb) ] /\
  activations 2 (enqueue2 (BlotAnimator.new b))
  = [ BlotAnimator.set_startTime t1 (BlotAnimator.set_priority p sa);
      BlotAnimator.set_startTime (t1 + durationOf sa) (BlotAnimator.set_priority p sb) ].
Proof.
  intros Ha Hb Hc H0 Hcur Hbusy Hq enqueue3 enqueue2 T0.
  unfold enqueue3, enqueue2, T0.
  rewrite (enqueue_5_10_1_busy t1 t2 t3 sa sb sc Ha Hb Hc a s0 Hcur Hbusy Hq H0).
  rewrite (enqueue_5_10_1_idle t1 t2 t3 sa sb sc Ha Hb Hc b).
  rewrite (enqueue_equal_busy t1 t2 sa sb Ha Hb p a s0 Hcur Hbusy Hq H0).
  rewrite (enqueue_equal_idle t1 t2 sa sb Ha Hb p b).
  simpl. rewrite !priority_set_startTime, !priority_set_priority.
  repeat split.
Qed.

Lemma queue_activation_order_example :
  let b := SDFBlot.new {| SDFBlot.width := 4; SDFBlot.height := 4 |} 0 0 in
  let s0 := BlotAnimator.createMorphSequence "idle" "idle" 100 in
  let sa := BlotAnimator.createMorphSequence "idle" "active" 800 in
  let sb := BlotAnimator.createMorphSequence "active" "menuExpanded" 600 in
  let sc := BlotAnimator.createMorphSequence "menuExpanded" "idle" 400 in
  let a := BlotAnimator.queueAnimation 0 s0 0 (BlotAnimator.new b) in
  let enqueue3 a :=
    BlotAnimator.queueAnimation 0 sc 1
      (BlotAnimator.queueAnimation 0 sb 10 (BlotAnimator.queueAnimation 0 sa 5 a)) in
  map BlotAnimator.priority (tl (activations 4 (enqueue3 a))) = [10; 5; 1]%Z /\
  map BlotAnimator.priority (activations 3 (enqueue3 (BlotAnimator.new b))) = [5; 10; 1]%Z.
Proof.
  cbv zeta.
  destruct (queue_activation_order 0 0 0
              (BlotAnimator.createMorphSequence "idle" "active" 800)
              (BlotAnimator.createMorphSequence "active" "menuExpanded" 600)
              (BlotAnimator.createMorphSequence "menuExpanded" "idle" 400)
              (BlotAnimator.Morph 0 0 100 BlotAnimator.easeOut 0 0)
              (SDFBlot.new {| SDFBlot.width := 4; SDFBlot.height := 4 |} 0 0)
              (BlotAnimator.queueAnimation 0
                 (BlotAnimator.createMorphSequence "idle" "idle" 100) 0
                 (BlotAnimator.new
                    (SDFBlot.new {| SDFBlot.width := 4; SDFBlot.height := 4 |} 0 0)))
              5%Z)
    as [[_ Hbusy] [[_ Hidle] _]];
    try reflexivity; try (split; [reflexivity | simpl; lra]).
  split; [exact Hbusy | exact Hidle].
Defined.

(** *** A continuous sequence holds the active slot *)

(** A tick of a continuous sequence leaves the sequencer as it is, and
    only hands the field on. *)
Lemma update_continuous (dt now : R) (a : BlotAnimator.animator) (s : BlotAnimator.sequence) :
  BlotAnimator.currentSequence a = Some s -> BlotAnimator.continuous s = true ->
  exists i,
    BlotAnimator.update dt now a
    = Ok (BlotAnimator.set_blot
            (BlotAnimator.updateBreathingAnimation dt i (BlotAnimator.blot a)) a).
Proof.
  intros Hc Hs. unfold BlotAnimator.update. rewrite Hc.
  destruct s as [w d e st pr | f g d e st pr | i f st pr]; try discriminate.
  exists i. reflexivity.
Qed.

Section Continuous.

Import BlotAnimator.

Variable s : sequence.
Hypothesis s_continuous : continuous s = true.

Lemma held_refl (a : animator) :
  currentSequence a = Some s -> isAnimating a = true -> held s a a.
Proof.
  intros Hc Hb. repeat split; try assumption.
  exists []. rewrite app_nil_r. apply Permutation_refl.
Qed.

Lemma held_trans (a a' a'' : animator) : held s a a' -> held s a' a'' -> held s a a''.
Proof.
  intros [_ [_ [l1 H1]]] [Hc [Hb [l2 H2]]]. repeat split; try assumption.
  exists (l1 ++ l2). rewrite app_assoc.
  apply perm_trans with (animationQueue a' ++ l2); [exact H2|].
  apply Permutation_app_tail, H1.
Qed.

Lemma held_set_blot (b : SDFBlot.blot) (a : animator) :
  currentSequence a = Some s -> isAnimating a = true -> held s a (set_blot b a).
Proof.
  intros Hc Hb. repeat split; try assumption.
  exists []. rewrite app_nil_r. apply Permutation_refl.
Qed.

Lemma held_queueAnimation (now : R) (s' : sequence) (p : Z) (a : animator) :
  currentSequence a = Some s -> isAnimating a = true ->
  held s a (queueAnimation now s' p a).
Proof.
  intros Hc Hb. rewrite queueAnimation_busy by exact Hb.
  repeat split; try assumption.
  exists [set_priority p s']. simpl. apply Permutation_sym, sort_perm.
Qed.

Lemma held_update (dt now : R) (a : animator) :
  currentSequence a = Some s -> isAnimating a = true ->
  exists a', update dt now a = Ok a' /\ held s a a'.
Proof.
  intros Hc Hb.
  destruct (update_continuous dt now a s Hc s_continuous) as [i ->].
  eexists. split; [reflexivity|]. apply held_set_blot; assumption.
Qed.

Lemma held_transitionToState (vp : viewport) (random now : R) (newState : string)
    (tx ty : option R) (ax ay : R) (a : animator) :
  currentSequence a = Some s -> isAnimating a = true ->
  held s a (transitionToState vp random now newState tx ty ax ay a).
Proof.
  intros Hc Hb. unfold transitionToState.
  set (a1 := queueAnimation now _ 10 a).
  assert (H1 : held s a a1) by (apply held_queueAnimation; assumption).
  set (a2 := match tx, ty with
             | Some tx', Some ty' =>
                 queueAnimation now (createMoveSequence vp random tx' ty' ax ay 800 a1) 9 a1
             | _, _ => a1
             end).
  assert (H2 : held s a a2).
  { destruct H1 as [Hc1 [Hb1 Hq1]].
    unfold a2. destruct tx as [tx'|]; [destruct ty as [ty'|]|].
    - apply held_trans with a1; [repeat split; assumption|].
      apply held_queueAnimation; assumption.
    - repeat split; assumption.
    - repeat split; assumption. }
  set (a3 := set_blot (SDFBlot.setState newState (blot a2)) a2).
  assert (H3 : held s a a3).
  { destruct H2 as [Hc2 [Hb2 Hq2]].
    apply held_trans with a2; [repeat split; assumption|].
    apply held_set_blot; assumption. }
  destruct (animationPresets newState) as [preset|]; [|exact H3].
  destruct H3 as [Hc3 [Hb3 Hq3]].
  apply held_trans with a3; [repeat split; assumption|].
  apply held_queueAnimation; assumption.
Qed.

Lemma held_step (c : call) (a : animator) :
  c <> CallEmergencyStop ->
  currentSequence a = Some s -> isAnimating a = true ->
  exists a', step c a = Ok a' /\ held s a a'.
Proof.
  intros Hne Hc Hb.
  destruct c as [dt now | now s' p | vp random now m tx ty ax ay | | c]; simpl.
  - apply held_update; assumption.
  - eexists. split; [reflexivity|]. apply held_queueAnimation; assumption.
  - eexists. split; [reflexivity|]. apply held_transitionToState; assumption.
  - contradiction.
  - eexists. split; [reflexivity|]. apply held_set_blot; assumption.
Qed.

Lemma held_run (cs : list call) :
  forall a : animator,
    ~ In CallEmergencyStop cs ->
    currentSequence a = Some s -> isAnimating a = true ->
    exists a', run cs a = Ok a' /\ held s a a'.
Proof.
  induction cs as [|c cs IH]; intros a Hne Hc Hb.
  - exists a. split; [reflexivity | apply held_refl; assumption].
  - destruct (held_step c a) as [a1 [Hs H1]]; try assumption.
    { intros ->. apply Hne. left. reflexivity. }
    destruct (IH a1) as [a2 [Hr H2]]; [|apply H1 | apply H1 |].
    { intros Hin. apply Hne. right. exact Hin. }
    exists a2. split; [simpl; rewrite Hs; exact Hr|].
    apply held_trans with a1; assumption.
Qed.

End Continuous.

(** On every sequencer a client can reach, [isAnimating] says whether a
    sequence is active. *)
Section Animating.

Import BlotAnimator.

Lemma consistent_set_blot (b : SDFBlot.blot) (a : animator) :
  consistent a -> consistent (set_blot b a).
Proof. intros H. exact H. Qed.

Lemma sort_not_nil (l : list sequence) : l <> [] -> sort l <> [].
Proof.
  intros Hl Hs. apply Hl.
  apply Permutation_nil. rewrite <- Hs. apply Permutation_sym, sort_perm.
Qed.

Lemma consistent_queueAnimation (now : R) (s : sequence) (p : Z) (a : animator) :
  consistent a -> consistent (queueAnimation now s p a).
Proof.
  intros H. destruct (isAnimating a) eqn:Hb.
  - rewrite queueAnimation_busy by exact Hb. unfold consistent in *. simpl.
    rewrite Hb in H. exact H.
  - rewrite queueAnimation_idle by exact Hb. unfold playNextAnimation. simpl.
    destruct (sort (animationQueue a ++ [set_priority p s])) as [|h t] eqn:Hs.
    + exfalso. apply (sort_not_nil (animationQueue a ++ [set_priority p s])); [|exact Hs].
      destruct (animationQueue a); discriminate.
    + unfold consistent. simpl. split; [discriminate | reflexivity].
Qed.

Lemma consistent_retire (now : R) (a : animator) : consistent (retire now a).
Proof.
  unfold retire, playNextAnimation. simpl.
  destruct (animationQueue a); unfold consistent; simpl.
  - split; [discriminate | intros H; contradiction].
  - split; [discriminate | reflexivity].
Qed.

Lemma consistent_update (dt now : R) (a a' : animator) :
  consistent a -> update dt now a = Ok a' -> consistent a'.
Proof.
  intros H. unfold update.
  destruct (currentSequence a) as [[w d e st pr | f g d e st pr | i f st pr]|] eqn:Hc.
  - destruct (updateMoveAnimation _ w (blot a)) as [b|]; simpl; [|discriminate].
    destruct (geb _ 1); intros [= <-].
    + apply consistent_retire.
    + unfold consistent in *. simpl. rewrite Hc in *. exact H.
  - destruct (geb _ 1); intros [= <-].
    + apply consistent_retire.
    + unfold consistent in *. simpl. rewrite Hc in *. exact H.
  - intros [= <-]. unfold consistent in *. simpl. rewrite Hc in *. exact H.
  - intros [= <-]. exact H.
Qed.

Lemma consistent_transitionToState (vp : viewport) (random now : R) (m : string)
    (tx ty : option R) (ax ay : R) (a : animator) :
  consistent a -> consistent (transitionToState vp random now m tx ty ax ay a).
Proof.
  intros H. unfold transitionToState.
  set (a1 := queueAnimation now _ 10 a).
  assert (H1 : consistent a1) by (apply consistent_queueAnimation, H).
  destruct tx as [tx'|], ty as [ty'|], (animationPresets m) as [preset|];
    repeat first [ exact H1
                 | apply consistent_queueAnimation
                 | apply consistent_set_blot ].
Qed.

Lemma consistent_run (cs : list call) :
  forall a a', consistent a -> run cs a = Ok a' -> consistent a'.
Proof.
  induction cs as [|c cs IH]; intros a a' H; simpl.
  - intros [= <-]. exact H.
  - destruct (step c a) as [a1|] eqn:Hs; simpl; [|discriminate].
    apply IH.
    destruct c as [dt now | now s p | vp random now m tx ty ax ay | | c];
      simpl in Hs.
    + apply (consistent_update dt now a a1 H Hs).
    + injection Hs as <-. apply consistent_queueAnimation, H.
    + injection Hs as <-. apply consistent_transitionToState, H.
    + injection Hs as <-. unfold consistent. simpl. split; [discriminate | intros F; contradiction].
    + injection Hs as <-. apply consistent_set_blot, H.
Qed.

Lemma reachable_consistent (cs : list call) (b : SDFBlot.blot) (a : animator) :
  run cs (new b) = Ok a -> consistent a.
Proof.
  apply consistent_run. unfold consistent. simpl.
  split; [discriminate | intros F; contradiction].
Qed.

End Animating.

(** C9: once a continuous (breathing) sequence is the active one, no
    number of sequencer updates retires it, and no sequence enqueued
    afterwards, whatever its priority and whether by [queueAnimation] or
    by [transitionToState], becomes active, for as long as
    [emergencyStop] is not called: the active sequence stays the very same,
    and the queue only gains.  After [emergencyStop] the slot is free, and
    the next sequence enqueued is promoted at once. *)
Theorem continuous_sequence_holds_slot
    (cs : list call) (a : BlotAnimator.animator) (s : BlotAnimator.sequence) :
  BlotAnimator.currentSequence a = Some s ->
  BlotAnimator.continuous s = true ->
  BlotAnimator.isAnimating a = true ->
  ~ In CallEmergencyStop cs ->
  exists a',
    run cs a = Ok a' /\
    BlotAnimator.currentSequence a' = Some s /\
    BlotAnimator.isAnimating a' = true /\
    (exists added,
       Permutation (BlotAnimator.animationQueue a')
                   (BlotAnimator.animationQueue a ++ added)) /\
    BlotAnimator.currentSequence (BlotAnimator.emergencyStop a') = None /\
    forall now s' p,
      BlotAnimator.currentSequence
        (BlotAnimator.queueAnimation now s' p (BlotAnimator.emergencyStop a'))
      = Some (BlotAnimator.set_startTime now (BlotAnimator.set_priority p s')).
Proof.
  intros Hc Hs Hb Hne.
  destruct (held_run s Hs cs a Hne Hc Hb) as [a' [Hr [Hc' [Hb' Hq]]]].
  exists a'. repeat split; try assumption.
Qed.

Lemma continuous_sequence_holds_slot_example :
  let b := SDFBlot.new {| SDFBlot.width := 4; SDFBlot.height := 4 |} 0 0 in
  let breathing := BlotAnimator.createBreathingSequence 0.05 0.8 in
  let morph := BlotAnimator.createMorphSequence "idle" "active" 800 in
  let a := BlotAnimator.queueAnimation 0 breathing 1 (BlotAnimator.new b) in
  let cs := [CallSequencerUpdate 16 1000; CallQueueAnimation 1000 morph 10;
             CallSequencerUpdate 16 5000; CallField (CallUpdate 16)] in
  exists a',
    run cs a = Ok a' /\
    BlotAnimator.currentSequence a' = Some (BlotAnimator.Breathing 0.05 0.8 0 1).
Proof.
  cbv zeta.
  destruct (continuous_sequence_holds_slot
              [CallSequencerUpdate 16 1000;
               CallQueueAnimation 1000 (BlotAnimator.createMorphSequence "idle" "active" 800) 10;
               CallSequencerUpdate 16 5000; CallField (CallUpdate 16)]
              (BlotAnimator.queueAnimation 0 (BlotAnimator.createBreathingSequence 0.05 0.8) 1
                 (BlotAnimator.new
                    (SDFBlot.new {| SDFBlot.width := 4; SDFBlot.height := 4 |} 0 0)))
              (BlotAnimator.Breathing 0.05 0.8 0 1)
              eq_refl eq_refl eq_refl)
    as [a' [Hr [Hc _]]].
  - intros [F | [F | [F | [F | []]]]]; discriminate.
  - exists a'. split; assumption.
Defined.

(** *** Breathing leaves the picture alone *)

Section Breathing.

Import SDFBlot.

Lemma createBlotSDF_without_intensity (b : blot) (px py t m : R) :
  createBlotSDF (without_intensity b) px py t m = createBlotSDF b px py t m.
Proof. reflexivity. Qed.

Lemma renderPixel_without_intensity (b : blot) (px py : nat) :
  renderPixel (without_intensity b) px py = renderPixel b px py.
Proof. reflexivity. Qed.

Lemma renderBlot_without_intensity (b : blot) :
  renderBlot (without_intensity b) = renderBlot b.
Proof. reflexivity. Qed.

Lemma isPointInside_without_intensity (b : blot) (px py : R) :
  isPointInside (without_intensity b) px py = isPointInside b px py.
Proof. reflexivity. Qed.

Lemma update_without_intensity (dt : R) (b : blot) :
  without_intensity (update dt b) = update dt (without_intensity b).
Proof. reflexivity. Qed.

Lemma updateBreathingAnimation_writes (dt i : R) (b : blot) :
  without_intensity (BlotAnimator.updateBreathingAnimation dt i b) = without_intensity b /\
  breathingIntensity (BlotAnimator.updateBreathingAnimation dt i b) = Some i.
Proof. split; reflexivity. Qed.

(** Fields that differ in [breathingIntensity] at most render alike. *)
Lemma same_picture (b b' : blot) :
  without_intensity b = without_intensity b' ->
  renderBlot b = renderBlot b' /\
  (forall px py t m, createBlotSDF b px py t m = createBlotSDF b' px py t m) /\
  (forall px py, isPointInside b px py = isPointInside b' px py).
Proof.
  intros H.
  rewrite <- (renderBlot_without_intensity b), <- (renderBlot_without_intensity b'), H.
  split; [reflexivity|]. split.
  - intros px py t m.
    rewrite <- (createBlotSDF_without_intensity b), <- (createBlotSDF_without_intensity b'), H.
    reflexivity.
  - intros px py.
    rewrite <- (isPointInside_without_intensity b), <- (isPointInside_without_intensity b'), H.
    reflexivity.
Qed.

End Breathing.

Section BreathingFrames.

Import BlotAnimator.

Variables (intensity frequency start : R) (prio : Z).

Lemma tick_breathing (f : frame) (a : animator) :
  currentSequence a = Some (Breathing intensity frequency start prio) ->
  tick f a
  = Ok (set_blot (SDFBlot.update (deltaTime f)
                    (updateBreathingAnimation (deltaTime f) intensity (blot a))) a).
Proof.
  intros Hc. unfold tick, update. rewrite Hc. reflexivity.
Qed.

Lemma tick_inactive (f : frame) (a : animator) :
  currentSequence a = None ->
  tick f a = Ok (set_blot (SDFBlot.update (deltaTime f) (blot a)) a).
Proof.
  intros Hc. unfold tick, update. rewrite Hc. reflexivity.
Qed.

(** Frame by frame, a sequencer with the breathing sequence active and one
    with nothing active keep their fields equal up to
    [breathingIntensity]. *)
Lemma frames_breathing (fs : list frame) :
  forall a a0 : animator,
    currentSequence a = Some (Breathing intensity frequency start prio) ->
    currentSequence a0 = None ->
    without_intensity (blot a) = without_intensity (blot a0) ->
    exists a' a0',
      run_frames fs a = Ok a' /\
      run_frames fs a0 = Ok a0' /\
      currentSequence a' = Some (Breathing intensity frequency start prio) /\
      animationQueue a' = animationQueue a /\
      without_intensity (blot a') = without_intensity (blot a0').
Proof.
  induction fs as [|f fs IH]; intros a a0 Hc H0 Hb.
  - exists a, a0. repeat split; assumption.
  - simpl. rewrite (tick_breathing f a Hc), (tick_inactive f a0 H0). simpl.
    destruct (IH (set_blot (SDFBlot.update (deltaTime f)
                              (updateBreathingAnimation (deltaTime f) intensity (blot a))) a)
                 (set_blot (SDFBlot.update (deltaTime f) (blot a0)) a0))
      as [a' [a0' [Hr [Hr0 [Hc' [Hq' Hb']]]]]].
    + exact Hc.
    + exact H0.
    + simpl. rewrite !update_without_intensity.
      destruct (updateBreathingAnimation_writes (deltaTime f) intensity (blot a)) as [-> _].
      rewrite Hb. reflexivity.
    + exists a', a0'. repeat split; assumption.
Qed.

End BreathingFrames.

(** C10: a tick of a breathing sequence writes the field's
    [breathingIntensity] and nothing else, and neither the field
    evaluator nor the rasterizer reads it; so after any frames (a sequencer
    update followed by a field update each) with a breathing sequence
    active, the rendered pixels, the field values and the inside test are
    those obtained with no sequence active and all other state equal. *)
Theorem breathing_leaves_picture
    (fs : list frame) (a : BlotAnimator.animator)
    (intensity frequency start deltaTime now : R) (prio : Z) :
  BlotAnimator.currentSequence a
    = Some (BlotAnimator.Breathing intensity frequency start prio) ->
  (exists a1,
     BlotAnimator.update deltaTime now a = Ok a1 /\
     without_intensity (BlotAnimator.blot a1) = without_intensity (BlotAnimator.blot a) /\
     SDFBlot.breathingIntensity (BlotAnimator.blot a1) = Some intensity /\
     BlotAnimator.animationQueue a1 = BlotAnimator.animationQueue a /\
     BlotAnimator.isAnimating a1 = BlotAnimator.isAnimating a /\
     BlotAnimator.currentSequence a1 = BlotAnimator.currentSequence a) /\
  (forall b v px py t m,
     SDFBlot.createBlotSDF (SDFBlot.set_breathingIntensity v b) px py t m
     = SDFBlot.createBlotSDF b px py t m /\
     SDFBlot.renderBlot (SDFBlot.set_breathingIntensity v b) = SDFBlot.renderBlot b) /\
  exists a' a0',
    run_frames fs a = Ok a' /\
    run_frames fs (inactive a) = Ok a0' /\
    SDFBlot.renderBlot (BlotAnimator.blot a') = SDFBlot.renderBlot (BlotAnimator.blot a0') /\
    (forall px py t m,
       SDFBlot.createBlotSDF (BlotAnimator.blot a') px py t m
       = SDFBlot.createBlotSDF (BlotAnimator.blot a0') px py t m) /\
    (forall px py,
       SDFBlot.isPointInside (BlotAnimator.blot a') px py
       = SDFBlot.isPointInside (BlotAnimator.blot a0') px py).
Proof.
  intros Hc. split; [|split].
  - unfold BlotAnimator.update. rewrite Hc. eexists. split; [reflexivity|].
    simpl. repeat split. exact Hc.
  - intros b v px py t m. split; reflexivity.
  - destruct (frames_breathing intensity frequency start prio fs a (inactive a))
      as [a' [a0' [Hr [Hr0 [_ [_ Hb]]]]]]; try reflexivity; try assumption.
    exists a', a0'. split; [exact Hr|]. split; [exact Hr0|].
    apply same_picture, Hb.
Qed.

Lemma breathing_leaves_picture_example :
  let b := SDFBlot.new {| SDFBlot.width := 4; SDFBlot.height := 4 |} 2 2 in
  let breathing := BlotAnimator.createBreathingSequence 0.05 0.8 in
  let a := BlotAnimator.queueAnimation 0 breathing 1 (BlotAnimator.new b) in
  let fs := [ {| deltaTime := 16; now := 16 |}; {| deltaTime := 16; now := 32 |} ] in
  exists a' a0',
    run_frames fs a = Ok a' /\
    run_frames fs (inactive a) = Ok a0' /\
    SDFBlot.breathingIntensity (BlotAnimator.blot a') = Some 0.05 /\
    SDFBlot.breathingIntensity (BlotAnimator.blot a0') = None /\
    SDFBlot.renderBlot (BlotAnimator.blot a') = SDFBlot.renderBlot (BlotAnimator.blot a0').
Proof.
  cbv zeta.
  destruct (breathing_leaves_picture
              [ {| deltaTime := 16; now := 16 |}; {| deltaTime := 16; now := 32 |} ]
              (BlotAnimator.queueAnimation 0 (BlotAnimator.createBreathingSequence 0.05 0.8) 1
                 (BlotAnimator.new
                    (SDFBlot.new {| SDFBlot.width := 4; SDFBlot.height := 4 |} 2 2)))
              0.05 0.8 0 16 16 1 eq_refl)
    as [_ [_ [a' [a0' [Hr [Hr0 [Hp _]]]]]]].
  exists a', a0'.
  split; [exact Hr|]. split; [exact Hr0|].
  simpl in Hr, Hr0. injection Hr as <-. injection Hr0 as <-.
  split; [reflexivity|]. split; [reflexivity|]. exact Hp.
Defined.

(** *** The transition to the expanded menu *)

Section Transition.

Import BlotAnimator.

Lemma index_Some {A : Type} (l : list A) (i : Z) :
  (0 <= i < Z.of_nat (List.length l))%Z -> exists v, index l i = Some v.
Proof.
  intros Hi. unfold index.
  assert (Hn : (i <? 0)%Z = false) by (apply Z.ltb_ge; lia).
  rewrite Hn.
  destruct (nth_error l (Z.to_nat i)) as [v|] eqn:Hv; [exists v; reflexivity|].
  apply nth_error_None in Hv. lia.
Qed.

(** A move update whose eased progress is not negative does not throw,
    and touches neither morph factor. *)
Lemma updateMoveAnimation_ok (progress : R) (waypoints : list point) (b : SDFBlot.blot) :
  0 <= progress ->
  exists b',
    updateMoveAnimation progress waypoints b = Ok b' /\
    SDFBlot.morphFactor b' = SDFBlot.morphFactor b /\
    SDFBlot.targetMorphFactor b' = SDFBlot.targetMorphFactor b.
Proof.
  intros Hp. unfold updateMoveAnimation.
  destruct (List.length waypoints <? 2)%nat eqn:Hlen.
  - exists b. repeat split.
  - apply Nat.ltb_ge in Hlen. cbv zeta.
    set (count := Z.of_nat (List.length waypoints - 1)).
    set (i := floor (progress * IZR count)).
    assert (Hi : (0 <= i)%Z).
    { apply Zfloor_lub. simpl. apply Rmult_le_pos; [exact Hp|].
      apply IZR_le. unfold count. lia. }
    destruct (i >=? count)%Z eqn:Hge.
    + rewrite (nth_error_last waypoints {| px := 0; py := 0 |}).
      * eexists. repeat split.
      * destruct waypoints; [simpl in Hlen; lia | discriminate].
    + assert (Hlt : (i < count)%Z).
      { destruct (Z.geb_spec i count); [discriminate | assumption]. }
      destruct (index_Some waypoints i) as [cur ->]; [unfold count in Hlt; lia|].
      destruct (index_Some waypoints (i + 1)) as [next ->]; [unfold count in Hlt; lia|].
      eexists. repeat split.
Qed.

Lemma tame_set_startTime (t : R) (s : sequence) : tame s -> tame (set_startTime t s).
Proof. destruct s; exact (fun H => H). Qed.

Lemma tame_set_priority (p : Z) (s : sequence) : tame s -> tame (set_priority p s).
Proof. destruct s; exact (fun H => H). Qed.

Lemma pulled_back_retire (now : R) (b : SDFBlot.blot) (a : animator) :
  SDFBlot.targetMorphFactor b = 0 -> SDFBlot.morphFactor b <= 1 ->
  Forall tame (animationQueue a) ->
  pulled_back (retire now (set_blot b a)).
Proof.
  intros Ht Hm Hq. unfold retire, playNextAnimation. simpl.
  destruct (animationQueue a) as [|h q]; unfold pulled_back; simpl.
  - repeat split; try assumption. discriminate.
  - inversion Hq as [|? ? Hh Hq']; subst.
    repeat split; try assumption.
    intros s [= <-]. apply tame_set_startTime, Hh.
Qed.

Lemma pulled_back_set_blot (b : SDFBlot.blot) (a : animator) :
  SDFBlot.targetMorphFactor b = 0 -> SDFBlot.morphFactor b <= 1 ->
  pulled_back a -> pulled_back (set_blot b a).
Proof.
  intros Ht Hm [_ [_ [Hc Hq]]]. repeat split; assumption.
Qed.

(** The sequencer's update keeps a pulled-back sequencer pulled back, and
    does not throw. *)
Lemma update_pulled_back (dt now : R) (a : animator) :
  pulled_back a -> exists a', update dt now a = Ok a' /\ pulled_back a'.
Proof.
  intros H. pose proof H as [Ht [Hm [Hc Hq]]]. unfold update.
  destruct (currentSequence a) as [[w d e st pr | f g d e st pr | i f st pr]|] eqn:Hcur.
  - specialize (Hc _ eq_refl). simpl in Hc. subst e.
    destruct (updateMoveAnimation_ok
                (easingFunctions easeInOut (Rmin ((now - st) / d) 1)) w (blot a))
      as [b' [-> [Hm' Ht']]].
    { apply easeInOut_nonneg, Rmin_r. }
    simpl. eexists. split; [reflexivity|].
    destruct (geb (Rmin ((now - st) / d) 1) 1).
    + apply pulled_back_retire; [rewrite Ht' | rewrite Hm' | ]; assumption.
    + apply pulled_back_set_blot; [rewrite Ht' | rewrite Hm' | ]; assumption.
  - specialize (Hc _ eq_refl). simpl in Hc. destruct Hc as [-> [-> ->]].
    eexists. split; [reflexivity|].
    pose proof (easeOut_le_1 (Rmin ((now - st) / d) 1) (Rmin_r _ _)) as He.
    set (eased := easingFunctions easeOut (Rmin ((now - st) / d) 1)) in *.
    destruct (geb (Rmin ((now - st) / d) 1) 1).
    + apply pulled_back_retire; [exact Ht | | exact Hq].
      unfold updateMorphAnimation. simpl SDFBlot.morphFactor. lra.
    + apply pulled_back_set_blot; [exact Ht | | exact H].
      unfold updateMorphAnimation. simpl SDFBlot.morphFactor. lra.
  - eexists. split; [reflexivity|].
    apply pulled_back_set_blot; [exact Ht | exact Hm | exact H].
  - exists a. split; [reflexivity | exact H].
Qed.

(** A frame then leaves the morph factor at nine tenths of at most 1. *)
Lemma tick_pulled_back (f : frame) (a : animator) :
  pulled_back a ->
  exists a',
    tick f a = Ok a' /\ pulled_back a' /\ SDFBlot.morphFactor (blot a') <= 0.9.
Proof.
  intros H. unfold tick.
  destruct (update_pulled_back (deltaTime f) (now f) a H) as [a1 [-> H1]].
  simpl. eexists. split; [reflexivity|].
  pose proof H1 as [Ht [Hm _]].
  split.
  - apply pulled_back_set_blot; [exact Ht | simpl; rewrite Ht; lra | exact H1].
  - simpl. rewrite Ht. lra.
Qed.

Lemma run_frames_pulled_back (fs : list frame) :
  forall (f : frame) (a : animator),
    pulled_back a ->
    exists a',
      run_frames (f :: fs) a = Ok a' /\ pulled_back a' /\
      SDFBlot.morphFactor (blot a') <= 0.9.
Proof.
  induction fs as [|g fs IH]; intros f a H.
  - destruct (tick_pulled_back f a H) as [a' [Hr H']].
    exists a'. split; [simpl; rewrite Hr; reflexivity | exact H'].
  - destruct (tick_pulled_back f a H) as [a1 [Hr [H1 _]]].
    destruct (IH g a1 H1) as [a' [Hr' H']].
    exists a'. split; [|exact H'].
    change (run_frames (f :: g :: fs) a) with (bind (tick f a) (run_frames (g :: fs))).
    rewrite Hr. exact Hr'.
Qed.

(** The pointer at (0,0) is more than 100 away from (100,100): the move
    takes no detour. *)
Lemma far_pointer_no_detour (vp : viewport) (random duration : R) (a : animator) :
  SDFBlot.x (blot a) = 100 -> SDFBlot.y (blot a) = 100 ->
  createMoveSequence vp random 300 300 0 0 duration a
  = Move [ {| px := 100; py := 100 |}; {| px := 300; py := 300 |} ]
         duration easeInOut 0 0.
Proof.
  intros Hx Hy. unfold createMoveSequence. rewrite Hx, Hy. cbv zeta.
  assert (Hfar : ltb (sqrt ((0 - 100) ^ 2 + (0 - 100) ^ 2)) 100 = false).
  { apply ltb_false. rewrite <- (sqrt_square 100) at 1 by lra.
    apply sqrt_le_1; lra. }
  rewrite Hfar. reflexivity.
Qed.

(** The sequencer right after the transition: the morph is active, the
    move and the breathing wait, and the field, whose state is now
    ["menuExpanded"], has its target morph factor where it was, at 0. *)
Lemma scenario_state (c : SDFBlot.canvas) (vp : viewport) (random t0 : R) :
  scenario c vp random t0
  = {| blot := SDFBlot.set_state "menuExpanded" (SDFBlot.new c 100 100);
       animationQueue :=
         [ Move [ {| px := 100; py := 100 |}; {| px := 300; py := 300 |} ]
                800 easeInOut 0 9;
           Breathing 0.03 0.6 0 1 ];
       isAnimating := true;
       currentSequence := Some (Morph 0 1 600 easeOut t0 10) |}.
Proof.
  unfold scenario, transitionToState. cbv zeta.
  rewrite far_pointer_no_detour by reflexivity.
  reflexivity.
Qed.

Lemma scenario_pulled_back (c : SDFBlot.canvas) (vp : viewport) (random t0 : R) :
  pulled_back (scenario c vp random t0).
Proof.
  rewrite scenario_state. unfold pulled_back. simpl.
  repeat split; try lra.
  - intros s [= <-]. simpl. repeat split.
  - repeat constructor.
Qed.

End Transition.

(** C1: the scenario of the specification, on the code.  The field starts
    at (100,100), idle, with morph factor 0; [transitionToState] is called
    with ["menuExpanded"], the target (300,300) and the pointer at (0,0).
    The sequencer names that mode ["menuExpanded"], the field's [setState]
    knows it as ["menu-expanded"]: the target morph factor is never raised
    from 0.  So, whatever the frames that follow (and however many, and
    whatever their clock), every one of them leaves the target morph
    factor at 0 and the morph factor at 0.9 or less: it cannot converge to
    1. *)
Theorem transition_morph_pulled_back
    (c : SDFBlot.canvas) (vp : BlotAnimator.viewport) (random t0 : R)
    (f : frame) (fs : list frame) :
  SDFBlot.state (BlotAnimator.blot (scenario c vp random t0)) = "menuExpanded"%string /\
  SDFBlot.targetMorphFactor (BlotAnimator.blot (scenario c vp random t0)) = 0 /\
  exists a',
    run_frames (f :: fs) (scenario c vp random t0) = Ok a' /\
    SDFBlot.targetMorphFactor (BlotAnimator.blot a') = 0 /\
    SDFBlot.morphFactor (BlotAnimator.blot a') <= 0.9.
Proof.
  split; [rewrite scenario_state; reflexivity|].
  split; [rewrite scenario_state; reflexivity|].
  destruct (run_frames_pulled_back fs f (scenario c vp random t0))
    as [a' [Hr [[Ht _] Hm]]]; [apply scenario_pulled_back|].
  exists a'. repeat split; assumption.
Qed.

(** *** The trajectory of the scenario *)

Section Trajectory.

Import BlotAnimator.

Lemma progress_complete (now start duration : R) :
  0 < duration -> start + duration <= now -> Rmin ((now - start) / duration) 1 = 1.
Proof.
  intros Hd Hn. apply Rmin_right.
  apply Rmult_le_reg_r with duration; [exact Hd|].
  unfold Rdiv. rewrite Rmult_assoc, Rinv_l by lra. lra.
Qed.

Lemma set_blot_retire (now : R) (b b' : SDFBlot.blot) (a : animator) :
  set_blot b' (retire now (set_blot b a)) = set_blot b' (retire now a).
Proof.
  unfold retire, playNextAnimation, set_blot. simpl.
  destruct (animationQueue a); reflexivity.
Qed.

Lemma blot_retire (now : R) (a : animator) : blot (retire now a) = blot a.
Proof.
  unfold retire, playNextAnimation. simpl.
  destruct (animationQueue a); reflexivity.
Qed.

(** The frame in which a morph runs out. *)
Lemma tick_morph_complete (f : frame) (a : animator)
    (g0 g1 d : R) (e : easing) (st : R) (pr : Z) :
  currentSequence a = Some (Morph g0 g1 d e st pr) ->
  0 < d -> st + d <= now f ->
  tick f a
  = Ok (set_blot (SDFBlot.update (deltaTime f) (updateMorphAnimation 1 g0 g1 (blot a)))
                 (retire (now f) a)).
Proof.
  intros Hc Hd Hn. unfold tick, update. rewrite Hc.
  rewrite progress_complete by assumption.
  rewrite easing_at_1, geb_true by lra.
  unfold finish. simpl bind. simpl andb. cbv iota.
  rewrite set_blot_retire, blot_retire. reflexivity.
Qed.

(** The frame in which a move runs out. *)
Lemma tick_move_complete (f : frame) (a : animator)
    (w : list point) (final : point) (d : R) (e : easing) (st : R) (pr : Z) :
  currentSequence a = Some (Move w d e st pr) ->
  (2 <= List.length w)%nat -> last w final = final ->
  0 < d -> st + d <= now f ->
  tick f a
  = Ok (set_blot (SDFBlot.update (deltaTime f) (SDFBlot.moveTo (px final) (py final) (blot a)))
                 (retire (now f) a)).
Proof.
  intros Hc Hw Hl Hd Hn. unfold tick, update. rewrite Hc.
  rewrite progress_complete by assumption.
  rewrite easing_at_1, geb_true by lra.
  rewrite (updateMoveAnimation_end w final) by exact Hw. rewrite Hl.
  unfold finish. simpl bind. simpl andb. cbv iota.
  rewrite set_blot_retire, blot_retire. reflexivity.
Qed.

(** Frames under an active breathing sequence: the field alone moves, by
    its own smoothing. *)
Lemma frames_breathing_smoothing (i fq st : R) (pr : Z) (fs : list frame) :
  forall a : animator,
    currentSequence a = Some (Breathing i fq st pr) ->
    exists a',
      run_frames fs a = Ok a' /\
      currentSequence a' = Some (Breathing i fq st pr) /\
      animationQueue a' = animationQueue a /\
      SDFBlot.targetMorphFactor (blot a') = SDFBlot.targetMorphFactor (blot a) /\
      SDFBlot.targetX (blot a') = SDFBlot.targetX (blot a) /\
      SDFBlot.targetY (blot a') = SDFBlot.targetY (blot a) /\
      SDFBlot.morphFactor (blot a') - SDFBlot.targetMorphFactor (blot a)
      = 0.9 ^ List.length fs
        * (SDFBlot.morphFactor (blot a) - SDFBlot.targetMorphFactor (blot a)) /\
      SDFBlot.x (blot a') - SDFBlot.targetX (blot a)
      = 0.92 ^ List.length fs * (SDFBlot.x (blot a) - SDFBlot.targetX (blot a)) /\
      SDFBlot.y (blot a') - SDFBlot.targetY (blot a)
      = 0.92 ^ List.length fs * (SDFBlot.y (blot a) - SDFBlot.targetY (blot a)).
Proof.
  induction fs as [|f fs IH]; intros a Hc.
  - exists a. simpl. repeat split; try assumption; ring.
  - simpl run_frames. rewrite (tick_breathing i fq st pr f a Hc). simpl bind.
    match goal with |- context [run_frames fs ?a1] => destruct (IH a1) as
        [a' [Hr [Hc' [Hq [Htm [Htx [Hty [Hm [Hx Hy]]]]]]]]] end; [exact Hc|].
    exists a'. split; [exact Hr|]. split; [exact Hc'|].
    simpl in Hq, Htm, Htx, Hty, Hm, Hx, Hy.
    repeat split; try assumption.
    + rewrite Hm. simpl. generalize (0.9 ^ List.length fs). intros q. nra.
    + rewrite Hx. simpl. generalize (0.92 ^ List.length fs). intros q. nra.
    + rewrite Hy. simpl. generalize (0.92 ^ List.length fs). intros q. nra.
Qed.

(** The scenario, with a first frame at or after the end of the morph (600
    after the transition), a second at or after the end of the move (800
    after the first), and any frames after them: the position approaches
    (300,300), and the morph factor, 1 when the morph ran out, approaches
    0. *)
Lemma scenario_trajectory (c : SDFBlot.canvas) (vp : viewport) (random t0 : R)
    (f1 f2 : frame) (fs : list frame) :
  t0 + 600 <= now f1 -> now f1 + 800 <= now f2 ->
  exists a',
    run_frames (f1 :: f2 :: fs) (scenario c vp random t0) = Ok a' /\
    currentSequence a' = Some (Breathing 0.03 0.6 (now f2) 1) /\
    animationQueue a' = [] /\
    SDFBlot.targetX (blot a') = 300 /\
    SDFBlot.targetY (blot a') = 300 /\
    SDFBlot.x (blot a') = 300 - 184 * 0.92 ^ List.length fs /\
    SDFBlot.y (blot a') = 300 - 184 * 0.92 ^ List.length fs /\
    SDFBlot.targetMorphFactor (blot a') = 0 /\
    SDFBlot.morphFactor (blot a') = 0.81 * 0.9 ^ List.length fs.
Proof.
  intros H1 H2. rewrite scenario_state.
  change (run_frames (f1 :: f2 :: fs) ?a)
    with (bind (tick f1 a) (fun a1 => bind (tick f2 a1) (run_frames fs))).
  rewrite (tick_morph_complete f1 _ 0 1 600 easeOut t0 10) by (try reflexivity; simpl; lra).
  simpl bind.
  rewrite (tick_move_complete f2 _
             [ {| px := 100; py := 100 |}; {| px := 300; py := 300 |} ]
             {| px := 300; py := 300 |} 800 easeInOut (now f1) 9)
    by (try reflexivity; simpl; try lia; lra).
  simpl bind.
  match goal with |- context [run_frames fs ?a3] =>
    destruct (frames_breathing_smoothing 0.03 0.6 (now f2) 1 fs a3) as
      [a' [Hr [Hc [Hq [Htm [Htx [Hty [Hm [Hx Hy]]]]]]]]] end; [reflexivity|].
  exists a'. split; [exact Hr|]. split; [exact Hc|].
  simpl in Hq, Htm, Htx, Hty, Hm, Hx, Hy.
  repeat split; try assumption; lra.
Qed.

End Trajectory.

(** ** Further properties of the shape field *)

(** *** The distance primitives *)

Section Distances.

Import SDFBlot.

Lemma sqrt_lt_square (v r : R) : 0 <= v -> 0 <= r -> (sqrt v < r <-> v < r * r).
Proof.
  intros Hv Hr. rewrite <- (sqrt_square r) at 1 by exact Hr. split.
  - apply sqrt_lt_0; nra.
  - apply sqrt_lt_1; nra.
Qed.

Lemma sqrt_eq_square (v r : R) : 0 <= v -> 0 <= r -> (sqrt v = r <-> v = r * r).
Proof.
  intros Hv Hr. split.
  - intros <-. symmetry. apply sqrt_sqrt, Hv.
  - intros ->. apply sqrt_square, Hr.
Qed.

Lemma sqrt_gt_square (v r : R) : 0 <= v -> 0 <= r -> (r < sqrt v <-> r * r < v).
Proof.
  intros Hv Hr. rewrite <- (sqrt_square r) at 1 by exact Hr. split.
  - apply sqrt_lt_0; nra.
  - apply sqrt_lt_1; nra.
Qed.

Lemma sdCircle_dist_euc (px py cx cy radius : R) :
  sdCircle px py cx cy radius = dist_euc px py cx cy - radius.
Proof. reflexivity. Qed.

Lemma dist_euc_difference (px py qx qy cx cy : R) :
  Rabs (dist_euc px py cx cy - dist_euc qx qy cx cy) <= dist_euc px py qx qy.
Proof.
  pose proof (triangle px py cx cy qx qy) as H1.
  pose proof (triangle qx qy cx cy px py) as H2.
  rewrite (distance_symm qx qy px py) in H2.
  apply Rabs_le. lra.
Qed.

End Distances.

(** X1: for a radius that is not negative, [sdCircle] is negative exactly at
    the points strictly inside the circle, zero exactly on it and positive
    exactly outside; it is never below minus the radius, the value it takes
    at the centre. *)
Theorem sdCircle_sign (px py cx cy radius : R) :
  0 <= radius ->
  let d2 := (px - cx) * (px - cx) + (py - cy) * (py - cy) in
  (SDFBlot.sdCircle px py cx cy radius < 0 <-> d2 < radius * radius) /\
  (SDFBlot.sdCircle px py cx cy radius = 0 <-> d2 = radius * radius) /\
  (0 < SDFBlot.sdCircle px py cx cy radius <-> radius * radius < d2) /\
  - radius <= SDFBlot.sdCircle px py cx cy radius /\
  SDFBlot.sdCircle cx cy cx cy radius = - radius.
Proof.
  intros Hr d2. unfold SDFBlot.sdCircle. cbv zeta. fold d2.
  assert (Hd : 0 <= d2).
  { pose proof (Rle_0_sqr (px - cx)) as Hx. pose proof (Rle_0_sqr (py - cy)) as Hy.
    unfold Rsqr in Hx, Hy. unfold d2. lra. }
  pose proof (sqrt_lt_square d2 radius Hd Hr) as Hlt.
  pose proof (sqrt_eq_square d2 radius Hd Hr) as Heq.
  pose proof (sqrt_gt_square d2 radius Hd Hr) as Hgt.
  pose proof (sqrt_pos d2) as Hp.
  split; [|split; [|split; [|split]]].
  - split; intros H; [apply Hlt; lra | apply Hlt in H; lra].
  - split; intros H; [apply Heq; lra | apply Heq in H; lra].
  - split; intros H; [apply Hgt; lra | apply Hgt in H; lra].
  - lra.
  - replace ((cx - cx) * (cx - cx) + (cy - cy) * (cy - cy)) with 0 by ring.
    rewrite sqrt_0. lra.
Qed.

Lemma sdCircle_sign_example :
  SDFBlot.sdCircle 3 4 0 0 6 < 0 /\ 0 < SDFBlot.sdCircle 3 4 0 0 2.
Proof.
  destruct (sdCircle_sign 3 4 0 0 6) as [[_ H6] _]; [lra|].
  destruct (sdCircle_sign 3 4 0 0 2) as [_ [_ [[_ H2] _]]]; [lra|].
  split; [apply H6 | apply H2]; lra.
Defined.

(** X2: [sdCircle] never changes faster than the point moves: the values at
    two points differ by at most the distance between the points. *)
Theorem sdCircle_lipschitz (px py qx qy cx cy radius : R) :
  Rabs (SDFBlot.sdCircle px py cx cy radius - SDFBlot.sdCircle qx qy cx cy radius)
  <= sqrt ((px - qx) * (px - qx) + (py - qy) * (py - qy)).
Proof.
  rewrite !sdCircle_dist_euc.
  replace (dist_euc px py cx cy - radius - (dist_euc qx qy cx cy - radius))
    with (dist_euc px py cx cy - dist_euc qx qy cx cy) by ring.
  apply (dist_euc_difference px py qx qy cx cy).
Qed.

Section Ellipse.

Import SDFBlot.

Variables (px py cx cy rx ry : R).
Hypotheses (rx_pos : 0 < rx) (ry_pos : 0 < ry).
Hypothesis off_centre : px <> cx \/ py <> cy.

Lemma ellipse_offsets :
  0 <= offset px cx rx /\ 0 <= offset py cy ry /\
  (0 < offset px cx rx \/ 0 < offset py cy ry).
Proof.
  unfold offset.
  assert (Hx : 0 <= Rabs (px - cx)) by apply Rabs_pos.
  assert (Hy : 0 <= Rabs (py - cy)) by apply Rabs_pos.
  assert (Hix : 0 < / rx) by (apply Rinv_0_lt_compat; exact rx_pos).
  assert (Hiy : 0 < / ry) by (apply Rinv_0_lt_compat; exact ry_pos).
  repeat split.
  - unfold Rdiv. nra.
  - unfold Rdiv. nra.
  - destruct off_centre as [H | H].
    + left. apply Rdiv_lt_0_compat; [|exact rx_pos].
      apply Rabs_pos_lt. lra.
    + right. apply Rdiv_lt_0_compat; [|exact ry_pos].
      apply Rabs_pos_lt. lra.
Qed.

Lemma ellipse_denominator :
  0 < sqrt (rx * rx * offset py cy ry * offset py cy ry
            + ry * ry * offset px cx rx * offset px cx rx).
Proof.
  destruct ellipse_offsets as [HX [HY Hpos]].
  apply sqrt_lt_R0.
  assert (0 < rx * rx) by nra. assert (0 < ry * ry) by nra.
  assert (0 <= offset py cy ry * offset py cy ry) by nra.
  assert (0 <= offset px cx rx * offset px cx rx) by nra.
  destruct Hpos.
  - assert (0 < offset px cx rx * offset px cx rx) by nra. nra.
  - assert (0 < offset py cy ry * offset py cy ry) by nra. nra.
Qed.

Lemma ellipse_norm :
  offset px cx rx * offset px cx rx + offset py cy ry * offset py cy ry
  = ((px - cx) / rx) * ((px - cx) / rx) + ((py - cy) / ry) * ((py - cy) / ry).
Proof.
  unfold offset, Rdiv.
  pose proof (Rsqr_abs (px - cx)) as Hx. pose proof (Rsqr_abs (py - cy)) as Hy.
  unfold Rsqr in Hx, Hy. nra.
Qed.

Lemma sdEllipse_factor :
  sdEllipse px py cx cy rx ry
  = (sqrt (offset px cx rx * offset px cx rx + offset py cy ry * offset py cy ry) - 1)
    * (rx * ry / sqrt (rx * rx * offset py cy ry * offset py cy ry
                       + ry * ry * offset px cx rx * offset px cx rx)).
Proof.
  unfold sdEllipse. cbv zeta. fold (offset px cx rx) (offset py cy ry).
  pose proof ellipse_denominator as HD. field. lra.
Qed.

Lemma sdEllipse_scale :
  0 < rx * ry / sqrt (rx * rx * offset py cy ry * offset py cy ry
                      + ry * ry * offset px cx rx * offset px cx rx).
Proof.
  apply Rdiv_lt_0_compat; [nra | apply ellipse_denominator].
Qed.

End Ellipse.

(** X3: for positive radii, and away from the centre (where the source
    divides by zero), [sdEllipse] is negative exactly at the points strictly
    inside the ellipse, zero exactly on it and positive exactly outside. *)
Theorem sdEllipse_sign (px py cx cy rx ry : R) :
  0 < rx -> 0 < ry -> px <> cx \/ py <> cy ->
  let q := ((px - cx) / rx) * ((px - cx) / rx) + ((py - cy) / ry) * ((py - cy) / ry) in
  (SDFBlot.sdEllipse px py cx cy rx ry < 0 <-> q < 1) /\
  (SDFBlot.sdEllipse px py cx cy rx ry = 0 <-> q = 1) /\
  (0 < SDFBlot.sdEllipse px py cx cy rx ry <-> 1 < q).
Proof.
  intros Hrx Hry Hoff q.
  rewrite (sdEllipse_factor px py cx cy rx ry Hrx Hry Hoff).
  pose proof (sdEllipse_scale px py cx cy rx ry Hrx Hry Hoff) as Hs.
  pose proof (ellipse_norm px py cx cy rx ry) as Hn. cbv zeta in Hn. fold q in Hn.
  set (scale := rx * ry / _) in *.
  rewrite Hn.
  assert (Hq : 0 <= q).
  { pose proof (Rle_0_sqr ((px - cx) / rx)) as Hx.
    pose proof (Rle_0_sqr ((py - cy) / ry)) as Hy.
    unfold Rsqr in Hx, Hy. unfold q. lra. }
  pose proof (sqrt_lt_square q 1 Hq Rle_0_1) as Hlt.
  pose proof (sqrt_eq_square q 1 Hq Rle_0_1) as Heq.
  pose proof (sqrt_gt_square q 1 Hq Rle_0_1) as Hgt.
  rewrite Rmult_1_r in Hlt, Heq, Hgt.
  repeat split; intros H.
  - apply Hlt. nra.
  - apply Hlt in H. nra.
  - apply Heq. nra.
  - apply Heq in H. rewrite H. ring.
  - apply Hgt. nra.
  - apply Hgt in H. nra.
Qed.

Lemma sdEllipse_sign_example :
  SDFBlot.sdEllipse 10 0 0 0 25 30 < 0 /\ 0 < SDFBlot.sdEllipse 0 40 0 0 25 30.
Proof.
  destruct (sdEllipse_sign 10 0 0 0 25 30) as [[_ Hin] _]; [lra | lra | left; lra |].
  destruct (sdEllipse_sign 0 40 0 0 25 30) as [_ [_ [_ Hout]]]; [lra | lra | right; lra |].
  split; [apply Hin | apply Hout]; lra.
Defined.

Lemma sdEllipse_axis_value (px cx cy rx ry d : R) :
  0 < rx -> 0 < ry -> 0 < d -> d = Rabs (px - cx) ->
  SDFBlot.sdEllipse px cy cx cy rx ry = rx * (d - rx) / d /\
  (SDFBlot.sdEllipse px cy cx cy rx ry = d - rx <-> d = rx).
Proof.
  intros Hrx Hry Hd Hdef.
  assert (Hv : SDFBlot.sdEllipse px cy cx cy rx ry = rx * (d - rx) / d).
  { unfold SDFBlot.sdEllipse. cbv zeta. rewrite <- Hdef.
    replace (cy - cy) with 0 by ring. rewrite Rabs_R0.
    replace (d / rx * (d / rx) + 0 / ry * (0 / ry)) with ((d / rx) * (d / rx))
      by (unfold Rdiv; ring).
    replace (rx * rx * (0 / ry) * (0 / ry) + ry * ry * (d / rx) * (d / rx))
      with ((ry * (d / rx)) * (ry * (d / rx))) by (unfold Rdiv; ring).
    assert (Hq : 0 < d / rx) by (apply Rdiv_lt_0_compat; assumption).
    rewrite !sqrt_square by nra.
    field. repeat split; lra. }
  split; [exact Hv|].
  rewrite Hv. split.
  - intros H.
    assert (Hm : rx * (d - rx) = (d - rx) * d).
    { transitivity (rx * (d - rx) / d * d); [field; lra | rewrite H; ring]. }
    assert (Hz : (d - rx) * (rx - d) = 0) by lra.
    apply Rmult_integral in Hz. lra.
  - intros ->. field. lra.
Qed.

(** X4: on the horizontal axis through the centre, at a point other than
    the centre, [sdEllipse] is [rx * (d - rx) / d] for the distance [d] of
    the point from the centre; this is the true signed distance [d - rx]
    only on the ellipse itself. *)
Theorem sdEllipse_on_axis (px cx cy rx ry : R) :
  0 < rx -> 0 < ry -> px <> cx ->
  let d := Rabs (px - cx) in
  SDFBlot.sdEllipse px cy cx cy rx ry = rx * (d - rx) / d /\
  (SDFBlot.sdEllipse px cy cx cy rx ry = d - rx <-> d = rx).
Proof.
  intros Hrx Hry Hne d.
  assert (Hd : 0 < d) by (apply Rabs_pos_lt; lra).
  destruct (sdEllipse_axis_value px cx cy rx ry d Hrx Hry Hd eq_refl) as [Hv Hiff].
  split; assumption.
Qed.

Lemma sdEllipse_on_axis_example :
  SDFBlot.sdEllipse 50 0 0 0 25 30 = 25 * (Rabs (50 - 0) - 25) / Rabs (50 - 0).
Proof.
  apply (sdEllipse_on_axis 50 0 0 25 30); lra.
Defined.

(** *** The field evaluator and the rasterizer *)

Section Expanded.

Import SDFBlot.



End Expanded.


Section Raster.

Import SDFBlot.

Lemma clamp8_id (z : Z) : (0 <= z <= 255)%Z -> clamp8 z = z.
Proof. intros H. unfold clamp8. lia. Qed.

(** A colour channel: the floor of the base value scaled by an intensity
    below 1 is below the base value. *)
Lemma channel_range (base : Z) (intensity : R) :
  (0 < base <= 255)%Z -> 0 <= intensity < 1 ->
  (0 <= clamp8 (floor (IZR base * intensity)) < base)%Z.
Proof.
  intros Hb Hi.
  assert (H0 : (0 <= floor (IZR base * intensity))%Z).
  { apply Zfloor_lub. simpl. apply Rmult_le_pos; [apply IZR_le; lia | lra]. }
  assert (H1 : (floor (IZR base * intensity) < base)%Z).
  { apply lt_IZR. destruct (Zfloor_bound (IZR base * intensity)) as [Hl _].
    apply Rle_lt_trans with (IZR base * intensity); [exact Hl|].
    assert (0 < IZR base) by (apply IZR_lt; lia). nra. }
  rewrite clamp8_id by lia. lia.
Qed.

Lemma renderPixel_length (b : blot) (px py : nat) : List.length (renderPixel b px py) = 4%nat.
Proof. unfold renderPixel. destruct (ltb _ 0); reflexivity. Qed.

Lemma flat_map_length_uniform {A : Type} (f : nat -> list A) (c : nat) (l : list nat) :
  (forall i, List.length (f i) = c) -> List.length (flat_map f l) = (c * List.length l)%nat.
Proof.
  intros Hf. induction l as [|h t IH]; simpl; [lia|].
  rewrite length_app, Hf, IH. lia.
Qed.

(** The chunk of index [k] of a concatenation of chunks of one length. *)
Lemma flat_map_chunk {A : Type} (f : nat -> list A) (c : nat) :
  (forall i, List.length (f i) = c) ->
  forall n start k, (k < n)%nat ->
    firstn c (skipn (c * k) (flat_map f (seq start n))) = f (start + k)%nat.
Proof.
  intros Hf. induction n as [|n IH]; intros start k Hk; [lia|].
  simpl. destruct k as [|k].
  - rewrite Nat.mul_0_r, Nat.add_0_r. simpl.
    rewrite firstn_app, Hf, Nat.sub_diag. simpl. rewrite app_nil_r.
    rewrite <- (Hf start). apply firstn_all.
  - replace (c * S k)%nat with (List.length (f start) + c * k)%nat by (rewrite Hf; lia).
    rewrite skipn_app, Nat.add_comm, Nat.add_sub.
    rewrite skipn_all2 by lia. simpl.
    rewrite IH by lia. f_equal. lia.
Qed.

Lemma row_length (b : blot) (py : nat) :
  List.length (flat_map (fun px => renderPixel b px py) (seq 0 (width (cv b))))
  = (4 * width (cv b))%nat.
Proof.
  rewrite (flat_map_length_uniform _ 4) by (intros; apply renderPixel_length).
  rewrite length_seq. reflexivity.
Qed.

End Raster.

(** X6: the image data of [renderBlot] has four bytes per pixel of the
    canvas, and the four bytes of the pixel [(px, py)] stand at the index
    [(py * width + px) * 4], the index the source computes. *)
Theorem renderBlot_layout (b : SDFBlot.blot) :
  List.length (SDFBlot.renderBlot b)
  = (4 * (SDFBlot.height (SDFBlot.cv b) * SDFBlot.width (SDFBlot.cv b)))%nat /\
  forall px py,
    (px < SDFBlot.width (SDFBlot.cv b))%nat ->
    (py < SDFBlot.height (SDFBlot.cv b))%nat ->
    firstn 4 (skipn ((py * SDFBlot.width (SDFBlot.cv b) + px) * 4) (SDFBlot.renderBlot b))
    = SDFBlot.renderPixel b px py.
Proof.
  unfold SDFBlot.renderBlot. split.
  - rewrite (flat_map_length_uniform _ (4 * SDFBlot.width (SDFBlot.cv b)))
      by (intros; apply row_length).
    rewrite length_seq. lia.
  - intros px py Hx Hy.
    set (w := SDFBlot.width (SDFBlot.cv b)) in *.
    set (row := fun py => flat_map (fun px => SDFBlot.renderPixel b px py) (seq 0 w)).
    replace ((py * w + px) * 4)%nat with (4 * px + 4 * w * py)%nat by lia.
    rewrite <- skipn_skipn.
    assert (Hrow : firstn (4 * w) (skipn (4 * w * py)
                     (flat_map row (seq 0 (SDFBlot.height (SDFBlot.cv b))))) = row py).
    { apply (flat_map_chunk row (4 * w)); [intros; apply row_length | exact Hy]. }
    assert (Hin : firstn 4 (skipn (4 * px) (row py)) = SDFBlot.renderPixel b px py).
    { apply (flat_map_chunk (fun px => SDFBlot.renderPixel b px py) 4);
        [intros; apply renderPixel_length | exact Hx]. }
    rewrite <- Hin, <- Hrow.
    rewrite skipn_firstn_comm, firstn_firstn.
    replace (Nat.min 4 (4 * w - 4 * px)) with 4%nat by lia. reflexivity.
Qed.

(** X7: a pixel is opaque exactly when its point is inside the blot.  An
    opaque pixel has alpha 255 and colour channels from 0 up to, but never
    reaching, the base colour (44, 24, 16); from 20 units of depth on it is
    black.  A pixel outside is four zeros. *)
Theorem renderPixel_colour (b : SDFBlot.blot) (px py : nat) :
  (SDFBlot.isPointInside b (INR px) (INR py) = true ->
   exists r g bl,
     SDFBlot.renderPixel b px py = [r; g; bl; 255%Z] /\
     (0 <= r < 44)%Z /\ (0 <= g < 24)%Z /\ (0 <= bl < 16)%Z /\
     (SDFBlot.createBlotSDF b (INR px) (INR py) (SDFBlot.time b) (SDFBlot.morphFactor b)
        <= -20 -> r = 0%Z /\ g = 0%Z /\ bl = 0%Z)) /\
  (SDFBlot.isPointInside b (INR px) (INR py) = false ->
   SDFBlot.renderPixel b px py = [0; 0; 0; 0]%Z).
Proof.
  unfold SDFBlot.isPointInside, SDFBlot.renderPixel. cbv zeta.
  set (distance := SDFBlot.createBlotSDF b (INR px) (INR py) (SDFBlot.time b)
                     (SDFBlot.morphFactor b)).
  split; intros Hin; rewrite Hin; [|reflexivity].
  assert (Hd : distance < 0).
  { unfold ltb in Hin. destruct (Rlt_dec distance 0); [assumption | discriminate]. }
  assert (Hi : 0 <= Rmax 0 (1 + distance / 20) < 1).
  { split; [apply Rmax_l|]. apply Rmax_lub_lt; lra. }
  do 3 eexists. split; [reflexivity|].
  split; [apply (channel_range 44); [lia | exact Hi]|].
  split; [apply (channel_range 24); [lia | exact Hi]|].
  split; [apply (channel_range 16); [lia | exact Hi]|].
  intros Hdeep. rewrite Rmax_left by lra. rewrite !Rmult_0_r.
  unfold floor. change 0 with (IZR 0). rewrite ZfloorZ. repeat split.
Qed.

(** *** The clocks of the field *)

(** X8: [n] calls of [update] with one [deltaTime] advance [time] by [n]
    times [deltaTime * animationSpeed] and the three phases by [n] times
    [deltaTime] times 0.001, 0.002 and 0.0015; the canvas, the state, the
    speed and [breathingIntensity] stay as they are.  With a [deltaTime]
    that is not negative none of the three phases ever decreases. *)
Theorem updates_accumulate (deltaTime : R) (n : nat) (b : SDFBlot.blot) :
  SDFBlot.time (updates deltaTime n b)
    = SDFBlot.time b + INR n * (deltaTime * SDFBlot.animationSpeed b) /\
  SDFBlot.breathingPhase (updates deltaTime n b)
    = SDFBlot.breathingPhase b + INR n * (deltaTime * 0.001) /\
  SDFBlot.pulsePhase (updates deltaTime n b)
    = SDFBlot.pulsePhase b + INR n * (deltaTime * 0.002) /\
  SDFBlot.wigglePhase (updates deltaTime n b)
    = SDFBlot.wigglePhase b + INR n * (deltaTime * 0.0015) /\
  SDFBlot.cv (updates deltaTime n b) = SDFBlot.cv b /\
  SDFBlot.state (updates deltaTime n b) = SDFBlot.state b /\
  SDFBlot.animationSpeed (updates deltaTime n b) = SDFBlot.animationSpeed b /\
  SDFBlot.breathingIntensity (updates deltaTime n b) = SDFBlot.breathingIntensity b /\
  (0 <= deltaTime ->
   SDFBlot.breathingPhase b <= SDFBlot.breathingPhase (updates deltaTime n b) /\
   SDFBlot.pulsePhase b <= SDFBlot.pulsePhase (updates deltaTime n b) /\
   SDFBlot.wigglePhase b <= SDFBlot.wigglePhase (updates deltaTime n b)).
Proof.
  assert (H : SDFBlot.time (updates deltaTime n b)
                = SDFBlot.time b + INR n * (deltaTime * SDFBlot.animationSpeed b) /\
              SDFBlot.breathingPhase (updates deltaTime n b)
                = SDFBlot.breathingPhase b + INR n * (deltaTime * 0.001) /\
              SDFBlot.pulsePhase (updates deltaTime n b)
                = SDFBlot.pulsePhase b + INR n * (deltaTime * 0.002) /\
              SDFBlot.wigglePhase (updates deltaTime n b)
                = SDFBlot.wigglePhase b + INR n * (deltaTime * 0.0015) /\
              SDFBlot.cv (updates deltaTime n b) = SDFBlot.cv b /\
              SDFBlot.state (updates deltaTime n b) = SDFBlot.state b /\
              SDFBlot.animationSpeed (updates deltaTime n b) = SDFBlot.animationSpeed b /\
              SDFBlot.breathingIntensity (updates deltaTime n b)
                = SDFBlot.breathingIntensity b).
  { induction n as [|n IH].
    - simpl. repeat split; ring.
    - destruct IH as [Ht [Hb [Hp [Hw [Hc [Hs [Ha Hi]]]]]]].
      rewrite updates_S, S_INR. simpl SDFBlot.time. simpl SDFBlot.breathingPhase.
      simpl SDFBlot.pulsePhase. simpl SDFBlot.wigglePhase. simpl SDFBlot.cv.
      simpl SDFBlot.state. simpl SDFBlot.animationSpeed. simpl SDFBlot.breathingIntensity.
      rewrite Ht, Hb, Hp, Hw, Ha.
      repeat split; try assumption; ring. }
  destruct H as [Ht [Hb [Hp [Hw [Hc [Hs [Ha Hi]]]]]]].
  repeat split; try assumption.
  - rewrite Hb. pose proof (pos_INR n). nra.
  - rewrite Hp. pose proof (pos_INR n). nra.
  - rewrite Hw. pose proof (pos_INR n). nra.
Qed.

(** ** Further properties of the sequencer *)

(** *** Easing *)

Section EasingShape.

Import BlotAnimator.

Lemma eqbR_false (a b : R) : a <> b -> eqbR a b = false.
Proof. intros H. unfold eqbR. destruct (Req_dec_T a b); [contradiction | reflexivity]. Qed.

Lemma easing_at_0 (e : easing) : easingFunctions e 0 = 0.
Proof.
  destruct e; simpl.
  - reflexivity.
  - rewrite ltb_true by lra. lra.
  - lra.
  - lra.
  - rewrite eqbR_refl. reflexivity.
Qed.

Lemma easeInOut_monotone (s t : R) :
  0 <= s <= t -> t <= 1 ->
  easingFunctions easeInOut s <= easingFunctions easeInOut t.
Proof.
  intros Hs Ht. simpl. unfold ltb.
  destruct (Rlt_dec s 0.5), (Rlt_dec t 0.5); nra.
Qed.

Lemma cube_monotone (s t : R) : 0 <= s <= t -> s * s * s <= t * t * t.
Proof.
  intros H.
  assert (s * s <= t * t) by nra.
  assert (s * (s * s) <= t * (t * t)) by (apply Rmult_le_compat; nra).
  lra.
Qed.

Lemma two_to_minus (t : R) : 0 <= t -> 0 < Rpower 2 (-10 * t) <= 1.
Proof.
  intros Ht. unfold Rpower. split; [apply exp_pos|].
  assert (Hln : 0 < ln 2).
  { rewrite <- ln_1. apply ln_increasing; lra. }
  destruct (Req_dec t 0) as [-> | Hne].
  - replace (-10 * 0 * ln 2) with 0 by ring. rewrite exp_0. lra.
  - rewrite <- exp_0. left. apply exp_increasing. nra.
Qed.

End EasingShape.

(** X9: each of the five easing functions maps 0 to 0 and 1 to 1. *)
Theorem easing_endpoints (e : BlotAnimator.easing) :
  BlotAnimator.easingFunctions e 0 = 0 /\ BlotAnimator.easingFunctions e 1 = 1.
Proof.
  split; [apply easing_at_0 | apply easing_at_1].
Qed.

(** X10: on the unit interval the four easings other than [elastic] never
    decrease and stay within the unit interval. *)
Theorem easing_monotone (e : BlotAnimator.easing) (s t : R) :
  e <> BlotAnimator.elastic ->
  0 <= s -> s <= t -> t <= 1 ->
  0 <= BlotAnimator.easingFunctions e s /\
  BlotAnimator.easingFunctions e s <= BlotAnimator.easingFunctions e t /\
  BlotAnimator.easingFunctions e t <= 1.
Proof.
  intros He H0 Hst H1.
  assert (Hm : forall u v, 0 <= u -> u <= v -> v <= 1 ->
             BlotAnimator.easingFunctions e u <= BlotAnimator.easingFunctions e v).
  { intros u v Hu Huv Hv. destruct e; simpl.
    - exact Huv.
    - apply easeInOut_monotone; lra.
    - pose proof (cube_monotone (1 - v) (1 - u)). nra.
    - apply cube_monotone. lra.
    - contradiction. }
  split; [|split].
  - rewrite <- (easing_at_0 e). apply Hm; lra.
  - apply Hm; assumption.
  - rewrite <- (easing_at_1 e). apply Hm; lra.
Qed.

Lemma easing_monotone_example :
  0 <= BlotAnimator.easingFunctions BlotAnimator.easeInOut 0.25 /\
  BlotAnimator.easingFunctions BlotAnimator.easeInOut 0.25
    <= BlotAnimator.easingFunctions BlotAnimator.easeInOut 0.75 /\
  BlotAnimator.easingFunctions BlotAnimator.easeInOut 0.75 <= 1.
Proof.
  apply (easing_monotone BlotAnimator.easeInOut 0.25 0.75); [discriminate | lra | lra | lra].
Defined.

(** X11: on the unit interval the [elastic] easing stays between 0 and 2:
    it is never more than 1 away from 1, and so never negative. *)
Theorem elastic_range (t : R) :
  0 <= t -> t <= 1 ->
  0 <= BlotAnimator.easingFunctions BlotAnimator.elastic t <= 2 /\
  Rabs (BlotAnimator.easingFunctions BlotAnimator.elastic t - 1) <= 1.
Proof.
  intros H0 H1.
  assert (Hr : Rabs (BlotAnimator.easingFunctions BlotAnimator.elastic t - 1) <= 1).
  { simpl. destruct (eqbR t 0 || eqbR t 1).
    - apply Rabs_le. lra.
    - destruct (two_to_minus t H0) as [Hp Hq].
      set (s := sin _). pose proof (SIN_bound ((t - 0.3 / 4) * (2 * PI) / 0.3)) as Hs.
      fold s in Hs.
      replace (Rpower 2 (-10 * t) * s + 1 - 1) with (Rpower 2 (-10 * t) * s) by ring.
      apply Rabs_le. split; nra. }
  split; [|exact Hr].
  revert Hr. unfold Rabs.
  destruct (Rcase_abs (BlotAnimator.easingFunctions BlotAnimator.elastic t - 1)); lra.
Qed.

Lemma elastic_range_example :
  0 <= BlotAnimator.easingFunctions BlotAnimator.elastic 0.5 <= 2 /\
  Rabs (BlotAnimator.easingFunctions BlotAnimator.elastic 0.5 - 1) <= 1.
Proof.
  apply (elastic_range 0.5); lra.
Defined.

(** *** The move update along the path *)

Lemma index_nth_error {A : Type} (l : list A) (i : nat) :
  BlotAnimator.index l (Z.of_nat i) = nth_error l i.
Proof.
  unfold BlotAnimator.index.
  assert (H : (Z.of_nat i <? 0)%Z = false) by (apply Z.ltb_ge; lia).
  rewrite H, Nat2Z.id. reflexivity.
Qed.

Lemma index_negative {A : Type} (l : list A) (i : Z) :
  (i < 0)%Z -> BlotAnimator.index l i = None.
Proof.
  intros H. unfold BlotAnimator.index. apply Z.ltb_lt in H. rewrite H. reflexivity.
Qed.

Section MovePath.

Import BlotAnimator.

Variables (waypoints : list point) (b : SDFBlot.blot).
Hypothesis two_waypoints : (2 <= List.length waypoints)%nat.

Lemma updateMoveAnimation_long (progress : R) :
  updateMoveAnimation progress waypoints b
  = let count := Z.of_nat (List.length waypoints - 1) in
    let i := floor (progress * IZR count) in
    if (i >=? count)%Z then
      match nth_error waypoints (List.length waypoints - 1) with
      | Some final => Ok (SDFBlot.moveTo (px final) (py final) b)
      | None => TypeError
      end
    else
      match index waypoints i, index waypoints (i + 1) with
      | Some current, Some next =>
          Ok (SDFBlot.moveTo
                (px current + (px next - px current) * (progress * IZR count - IZR i))
                (py current + (py next - py current) * (progress * IZR count - IZR i)) b)
      | _, _ => TypeError
      end.
Proof.
  unfold updateMoveAnimation.
  assert (Hlt : (List.length waypoints <? 2)%nat = false)
    by (apply Nat.ltb_ge; exact two_waypoints).
  rewrite Hlt. reflexivity.
Qed.

End MovePath.

(** X12: with at least two waypoints, the move update at the progress
    [k / (n - 1)] writes exactly the waypoint of index [k] to the field's
    target: the path passes through every waypoint, the first one at
    progress 0. *)
Theorem move_through_waypoints
    (waypoints : list BlotAnimator.point) (k : nat) (p : BlotAnimator.point)
    (b : SDFBlot.blot) :
  (2 <= List.length waypoints)%nat ->
  nth_error waypoints k = Some p ->
  exists b',
    BlotAnimator.updateMoveAnimation
      (IZR (Z.of_nat k) / IZR (Z.of_nat (List.length waypoints - 1))) waypoints b = Ok b' /\
    SDFBlot.targetX b' = BlotAnimator.px p /\
    SDFBlot.targetY b' = BlotAnimator.py p.
Proof.
  intros Hn Hk.
  assert (Hlen : (k < List.length waypoints)%nat).
  { apply nth_error_Some. rewrite Hk. discriminate. }
  rewrite (updateMoveAnimation_long waypoints b Hn). cbv zeta.
  assert (Hc : IZR (Z.of_nat (List.length waypoints - 1)) <> 0).
  { apply not_0_IZR. lia. }
  replace (IZR (Z.of_nat k) / IZR (Z.of_nat (List.length waypoints - 1))
           * IZR (Z.of_nat (List.length waypoints - 1)))
    with (IZR (Z.of_nat k)) by (field; exact Hc).
  unfold floor. rewrite ZfloorZ.
  destruct (Z.of_nat k >=? Z.of_nat (List.length waypoints - 1))%Z eqn:Hge.
  - assert (Hlast : k = (List.length waypoints - 1)%nat).
    { destruct (Z.geb_spec (Z.of_nat k) (Z.of_nat (List.length waypoints - 1)));
        [lia | discriminate]. }
    rewrite <- Hlast, Hk. eexists. split; [reflexivity|]. split; reflexivity.
  - assert (Hlt : (S k < List.length waypoints)%nat).
    { destruct (Z.geb_spec (Z.of_nat k) (Z.of_nat (List.length waypoints - 1)));
        [discriminate | lia]. }
    rewrite index_nth_error, Hk.
    replace (Z.of_nat k + 1)%Z with (Z.of_nat (S k)) by lia.
    rewrite index_nth_error.
    destruct (nth_error waypoints (S k)) as [next|] eqn:Hnext.
    + eexists. split; [reflexivity|]. simpl. split; ring.
    + apply nth_error_None in Hnext. lia.
Qed.

Lemma move_through_waypoints_example :
  let b := SDFBlot.new {| SDFBlot.width := 4; SDFBlot.height := 4 |} 0 0 in
  let p0 := {| BlotAnimator.px := 0; BlotAnimator.py := 0 |} in
  let p1 := {| BlotAnimator.px := 60; BlotAnimator.py := 120 |} in
  let p2 := {| BlotAnimator.px := 200; BlotAnimator.py := 0 |} in
  exists b',
    BlotAnimator.updateMoveAnimation (1 / 2) [p0; p1; p2] b = Ok b' /\
    SDFBlot.targetX b' = 60 /\ SDFBlot.targetY b' = 120.
Proof.
  cbv zeta.
  apply (move_through_waypoints
           [ {| BlotAnimator.px := 0; BlotAnimator.py := 0 |};
             {| BlotAnimator.px := 60; BlotAnimator.py := 120 |};
             {| BlotAnimator.px := 200; BlotAnimator.py := 0 |} ] 1
           {| BlotAnimator.px := 60; BlotAnimator.py := 120 |});
    [simpl; lia | reflexivity].
Defined.

(** X13: with at least two waypoints and a progress that is not negative,
    the move update does not throw, writes the target position and nothing
    else of the field, and that target lies on the path: it is the final
    waypoint (always so from progress 1 on), or a point of the segment
    between two consecutive waypoints. *)
Theorem move_stays_on_path
    (progress : R) (waypoints : list BlotAnimator.point)
    (d : BlotAnimator.point) (b : SDFBlot.blot) :
  (2 <= List.length waypoints)%nat ->
  0 <= progress ->
  exists b',
    BlotAnimator.updateMoveAnimation progress waypoints b = Ok b' /\
    b' = SDFBlot.moveTo (SDFBlot.targetX b') (SDFBlot.targetY b') b /\
    (1 <= progress ->
     SDFBlot.targetX b' = BlotAnimator.px (last waypoints d) /\
     SDFBlot.targetY b' = BlotAnimator.py (last waypoints d)) /\
    ((SDFBlot.targetX b' = BlotAnimator.px (last waypoints d) /\
      SDFBlot.targetY b' = BlotAnimator.py (last waypoints d)) \/
     exists (i : nat) (current next : BlotAnimator.point) (t : R),
       nth_error waypoints i = Some current /\
       nth_error waypoints (S i) = Some next /\
       0 <= t < 1 /\
       SDFBlot.targetX b'
       = BlotAnimator.px current + (BlotAnimator.px next - BlotAnimator.px current) * t /\
       SDFBlot.targetY b'
       = BlotAnimator.py current + (BlotAnimator.py next - BlotAnimator.py current) * t).
Proof.
  intros Hn Hp.
  rewrite (updateMoveAnimation_long waypoints b Hn). cbv zeta.
  set (count := Z.of_nat (List.length waypoints - 1)).
  assert (Hcount : 1 <= IZR count) by (apply IZR_le; unfold count; lia).
  set (i := floor (progress * IZR count)).
  destruct (Zfloor_bound (progress * IZR count)) as [Hlo Hhi].
  fold (floor (progress * IZR count)) in Hlo, Hhi.
  fold i in Hlo, Hhi.
  assert (Hi : (0 <= i)%Z).
  { apply Zfloor_lub. simpl. apply Rmult_le_pos; lra. }
  rewrite (nth_error_last waypoints d)
    by (destruct waypoints; [simpl in Hn; lia | discriminate]).
  destruct (i >=? count)%Z eqn:Hge.
  - eexists. split; [reflexivity|]. simpl. repeat split. left. split; reflexivity.
  - assert (Hlt : (i < count)%Z).
    { destruct (Z.geb_spec i count); [discriminate | assumption]. }
    assert (Hprog : progress < 1).
    { apply IZR_lt in Hlt.
      destruct (Rlt_dec progress 1) as [|Hge1]; [assumption|].
      exfalso. assert (IZR count <= progress * IZR count) by nra.
      assert (Hc : (count <= i)%Z).
      { apply Zfloor_lub. exact H. }
      lia. }
    rewrite <- (Z2Nat.id i Hi).
    rewrite (index_nth_error waypoints).
    replace (Z.of_nat (Z.to_nat i) + 1)%Z with (Z.of_nat (S (Z.to_nat i))) by lia.
    rewrite (index_nth_error waypoints).
    destruct (nth_error waypoints (Z.to_nat i)) as [current|] eqn:Hcur;
      [|apply nth_error_None in Hcur; unfold count in Hlt; lia].
    destruct (nth_error waypoints (S (Z.to_nat i))) as [next|] eqn:Hnext;
      [|apply nth_error_None in Hnext; unfold count in Hlt; lia].
    eexists. split; [reflexivity|]. simpl. split; [reflexivity|].
    split; [intros H1; lra|].
    right. exists (Z.to_nat i), current, next, (progress * IZR count - IZR i).
    rewrite Z2Nat.id by exact Hi.
    repeat split; try assumption; lra.
Qed.

Lemma move_stays_on_path_example :
  let b := SDFBlot.new {| SDFBlot.width := 4; SDFBlot.height := 4 |} 0 0 in
  let p0 := {| BlotAnimator.px := 0; BlotAnimator.py := 0 |} in
  let p1 := {| BlotAnimator.px := 200; BlotAnimator.py := 0 |} in
  exists b',
    BlotAnimator.updateMoveAnimation 0.25 [p0; p1] b = Ok b' /\
    b' = SDFBlot.moveTo (SDFBlot.targetX b') (SDFBlot.targetY b') b.
Proof.
  cbv zeta.
  destruct (move_stays_on_path 0.25
              [ {| BlotAnimator.px := 0; BlotAnimator.py := 0 |};
                {| BlotAnimator.px := 200; BlotAnimator.py := 0 |} ]
              {| BlotAnimator.px := 0; BlotAnimator.py := 0 |}
              (SDFBlot.new {| SDFBlot.width := 4; SDFBlot.height := 4 |} 0 0))
    as [b' [Hr [Hb _]]]; [simpl; lia | lra |].
  exists b'. split; assumption.
Defined.

Lemma updateMoveAnimation_negative
    (progress : R) (waypoints : list BlotAnimator.point) (b : SDFBlot.blot) :
  (2 <= List.length waypoints)%nat ->
  progress < 0 ->
  BlotAnimator.updateMoveAnimation progress waypoints b = TypeError.
Proof.
  intros Hn Hp.
  rewrite (updateMoveAnimation_long waypoints b Hn). cbv zeta.
  set (count := Z.of_nat (List.length waypoints - 1)).
  assert (Hcount : 1 <= IZR count) by (apply IZR_le; unfold count; lia).
  set (i := floor (progress * IZR count)).
  assert (Hi : (i < 0)%Z).
  { apply lt_IZR. destruct (Zfloor_bound (progress * IZR count)) as [Hlo _].
    fold (floor (progress * IZR count)) in Hlo. fold i in Hlo. simpl. nra. }
  assert (Hge : (i >=? count)%Z = false).
  { destruct (Z.geb_spec i count); [unfold count in *; lia | reflexivity]. }
  rewrite Hge, (index_negative waypoints i Hi). reflexivity.
Qed.

(** X14: with at least two waypoints and a negative progress, the move
    update throws: it reads [waypoints[-1]], which is undefined, and then a
    coordinate of it. *)
Theorem move_negative_progress_throws
    (progress : R) (waypoints : list BlotAnimator.point) (b : SDFBlot.blot) :
  (2 <= List.length waypoints)%nat ->
  progress < 0 ->
  BlotAnimator.updateMoveAnimation progress waypoints b = TypeError.
Proof.
  apply updateMoveAnimation_negative.
Qed.

Lemma move_negative_progress_throws_example :
  BlotAnimator.updateMoveAnimation (-0.1)
    [ {| BlotAnimator.px := 0; BlotAnimator.py := 0 |};
      {| BlotAnimator.px := 200; BlotAnimator.py := 0 |} ]
    (SDFBlot.new {| SDFBlot.width := 4; SDFBlot.height := 4 |} 0 0)
  = TypeError.
Proof.
  apply move_negative_progress_throws; [simpl; lia | lra].
Defined.

(** *** When the sequencer throws *)

Section Throwing.

Import BlotAnimator.










End Throwing.



(** X16: a move of at least two waypoints that is eased by [linear],
    [easeIn] or [easeOut] makes [update] throw when the clock reads less
    than the start time of the move: the progress is negative, and so is
    its eased value. *)
Theorem update_before_start_throws
    (deltaTime now : R) (a : BlotAnimator.animator)
    (waypoints : list BlotAnimator.point) (duration : R) (e : BlotAnimator.easing)
    (start : R) (prio : Z) :
  BlotAnimator.currentSequence a
    = Some (BlotAnimator.Move waypoints duration e start prio) ->
  e = BlotAnimator.linear \/ e = BlotAnimator.easeIn \/ e = BlotAnimator.easeOut ->
  (2 <= List.length waypoints)%nat ->
  0 < duration ->
  now < start ->
  BlotAnimator.update deltaTime now a = TypeError.
Proof.
  intros Hc He Hn Hd Hnow. unfold BlotAnimator.update. rewrite Hc.
  assert (Hp : Rmin ((now - start) / duration) 1 < 0).
  { apply Rle_lt_trans with ((now - start) / duration); [apply Rmin_l|].
    unfold Rdiv. assert (0 < / duration) by (apply Rinv_0_lt_compat; exact Hd). nra. }
  set (progress := Rmin ((now - start) / duration) 1) in *.
  rewrite updateMoveAnimation_negative; [reflexivity | exact Hn |].
  destruct He as [-> | [-> | ->]]; simpl.
  - exact Hp.
  - assert (0 < progress * progress) by nra. nra.
  - assert (0 < (1 - progress) * (1 - progress)) by nra. nra.
Qed.

Lemma update_before_start_throws_example :
  let b := SDFBlot.new {| SDFBlot.width := 4; SDFBlot.height := 4 |} 0 0 in
  let move := BlotAnimator.Move [ {| BlotAnimator.px := 0; BlotAnimator.py := 0 |};
                                  {| BlotAnimator.px := 200; BlotAnimator.py := 0 |} ]
                                1000 BlotAnimator.linear 0 0 in
  BlotAnimator.update 16 990 (BlotAnimator.queueAnimation 1000 move 1 (BlotAnimator.new b))
  = TypeError.
Proof.
  cbv zeta.
  apply (update_before_start_throws 16 990 _
           [ {| BlotAnimator.px := 0; BlotAnimator.py := 0 |};
             {| BlotAnimator.px := 200; BlotAnimator.py := 0 |} ]
           1000 BlotAnimator.linear 1000 1);
    [reflexivity | left; reflexivity | simpl; lia | lra | lra].
Defined.

(** *** The order of the queue *)

Section Orderly.

Import BlotAnimator.

Lemma orderly_set_blot (b : SDFBlot.blot) (a : animator) : orderly a -> orderly (set_blot b a).
Proof. exact (fun H => H). Qed.

Lemma sorted_tail (h : sequence) (q : list sequence) :
  StronglySorted before (h :: q) -> StronglySorted before q.
Proof. intros H. inversion H; assumption. Qed.

Lemma orderly_playNextAnimation (now : R) (a : animator) :
  StronglySorted before (animationQueue a) -> orderly (playNextAnimation now a).
Proof.
  intros Hs. unfold playNextAnimation.
  destruct (animationQueue a) as [|h q]; split; simpl.
  - constructor.
  - reflexivity.
  - apply (sorted_tail h q Hs).
  - discriminate.
Qed.

Lemma orderly_finish (now : R) (c : bool) (s : sequence) (a : animator) :
  orderly a -> orderly (finish now c s a).
Proof.
  intros H. unfold finish. destruct (c && negb (continuous s)); [|exact H].
  unfold retire. apply orderly_playNextAnimation. apply H.
Qed.

Lemma orderly_queueAnimation (now : R) (s : sequence) (p : Z) (a : animator) :
  orderly (queueAnimation now s p a).
Proof.
  unfold queueAnimation. cbv zeta. simpl isAnimating.
  destruct (isAnimating a) eqn:Hb; simpl negb; cbv iota.
  - split; simpl; [apply sort_sorted | discriminate].
  - apply orderly_playNextAnimation. simpl. apply sort_sorted.
Qed.

Lemma orderly_transitionToState (vp : viewport) (random now : R) (m : string)
    (tx ty : option R) (ax ay : R) (a : animator) :
  orderly (transitionToState vp random now m tx ty ax ay a).
Proof.
  unfold transitionToState. cbv zeta.
  destruct tx as [tx'|], ty as [ty'|], (animationPresets m) as [preset|];
    repeat first [ apply orderly_queueAnimation | apply orderly_set_blot ].
Qed.

Lemma orderly_update (dt now : R) (a a' : animator) :
  orderly a -> update dt now a = Ok a' -> orderly a'.
Proof.
  intros H. unfold update.
  destruct (currentSequence a) as [[w d e st pr | f g d e st pr | i f st pr]|].
  - destruct (updateMoveAnimation _ w (blot a)) as [b|]; simpl bind; [|discriminate].
    intros [= <-]. apply orderly_finish, orderly_set_blot, H.
  - intros [= <-]. apply orderly_finish, orderly_set_blot, H.
  - intros [= <-]. apply orderly_finish, orderly_set_blot, H.
  - intros [= <-]. exact H.
Qed.

Lemma orderly_run (cs : list call) :
  forall a a', orderly a -> run cs a = Ok a' -> orderly a'.
Proof.
  induction cs as [|c cs IH]; intros a a' H; simpl.
  - intros [= <-]. exact H.
  - destruct (step c a) as [a1|] eqn:Hs; simpl; [|discriminate].
    apply IH.
    destruct c as [dt now | now s p | vp random now m tx ty ax ay | | c]; simpl in Hs.
    + apply (orderly_update dt now a a1 H Hs).
    + injection Hs as <-. apply orderly_queueAnimation.
    + injection Hs as <-. apply orderly_transitionToState.
    + injection Hs as <-. split; [constructor | reflexivity].
    + injection Hs as <-. apply orderly_set_blot, H.
Qed.

(** Two queues in descending order of priority that hold, for every
    priority, the same sequences in the same order are one queue. *)
Lemma of_priority_head (h : sequence) (q : list sequence) :
  of_priority (priority h) (h :: q) = h :: of_priority (priority h) q.
Proof. unfold of_priority. simpl. rewrite Z.eqb_refl. reflexivity. Qed.

Lemma of_priority_In (p : Z) (s : sequence) (q : list sequence) :
  In s (of_priority p q) -> In s q.
Proof. unfold of_priority. intros H. apply filter_In in H. apply H. Qed.

Lemma sorted_head_max (h : sequence) (q : list sequence) (s : sequence) :
  StronglySorted before (h :: q) -> In s (h :: q) -> (priority s <= priority h)%Z.
Proof.
  intros Hs [<- | Hin]; [lia|].
  inversion Hs as [|? ? _ Hall]; subst.
  rewrite Forall_forall in Hall. apply (Hall s Hin).
Qed.

Lemma stable_order_unique (l1 : list sequence) :
  forall l2,
    StronglySorted before l1 -> StronglySorted before l2 ->
    (forall p, of_priority p l1 = of_priority p l2) ->
    l1 = l2.
Proof.
  induction l1 as [|h t IH]; intros l2 H1 H2 Hf.
  - destruct l2 as [|h2 t2]; [reflexivity|].
    specialize (Hf (priority h2)). rewrite of_priority_head in Hf. discriminate.
  - destruct l2 as [|h2 t2].
    { specialize (Hf (priority h)). rewrite of_priority_head in Hf. discriminate. }
    assert (Hp : priority h2 = priority h).
    { assert (Ha : In h (h2 :: t2)).
      { apply (of_priority_In (priority h)). rewrite <- Hf, of_priority_head. left. reflexivity. }
      assert (Hb : In h2 (h :: t)).
      { apply (of_priority_In (priority h2)). rewrite Hf, of_priority_head. left. reflexivity. }
      pose proof (sorted_head_max h2 t2 h H2 Ha).
      pose proof (sorted_head_max h t h2 H1 Hb). lia. }
    pose proof (Hf (priority h)) as Hh.
    unfold of_priority in Hh. simpl in Hh.
    apply Z.eqb_eq in Hp. rewrite Z.eqb_refl, Hp in Hh.
    injection Hh as Hhead Htail.
    subst h2. f_equal.
    apply IH; [apply (sorted_tail h t H1) | apply (sorted_tail h t2 H2) |].
    intros p. specialize (Hf p). unfold of_priority in *. simpl in Hf.
    destruct (priority h =? p)%Z; [injection Hf as Hf|]; exact Hf.
Qed.

Lemma of_priority_sort (p : Z) (l : list sequence) : of_priority p (sort l) = of_priority p l.
Proof. apply sort_stable. Qed.

Lemma of_priority_app (p : Z) (l l' : list sequence) :
  of_priority p (l ++ l') = of_priority p l ++ of_priority p l'.
Proof. apply filter_app. Qed.

Lemma sort_sort_app (l l' : list sequence) : sort (sort l ++ l') = sort (l ++ l').
Proof.
  apply stable_order_unique; try apply sort_sorted.
  intros p. rewrite !of_priority_sort, !of_priority_app, of_priority_sort. reflexivity.
Qed.

Lemma enqueue_all_busy (rs : list request) :
  forall a,
    isAnimating a = true ->
    enqueue_all rs a
    = {| blot := blot a;
         animationQueue := sort (animationQueue a ++ map pending rs);
         isAnimating := true;
         currentSequence := currentSequence a |}
    \/ rs = [].
Proof.
  induction rs as [|r rs IH]; intros a Hb; [right; reflexivity|].
  left. unfold enqueue_all. simpl fold_left.
  fold (enqueue_all rs (queueAnimation (when r) (what r) (rank r) a)).
  rewrite queueAnimation_busy by exact Hb.
  destruct (IH {| blot := blot a;
                  animationQueue := sort (animationQueue a ++ [set_priority (rank r) (what r)]);
                  isAnimating := true;
                  currentSequence := currentSequence a |} eq_refl) as [-> | ->].
  - simpl. rewrite sort_sort_app, <- app_assoc. reflexivity.
  - simpl. reflexivity.
Qed.

End Orderly.

(** X17: on every sequencer a client can reach from a new one, the queue
    is in descending order of priority, and nothing waits in it while the
    sequencer is not animating. *)
Theorem reachable_orderly (cs : list call) (b : SDFBlot.blot) (a : BlotAnimator.animator) :
  run cs (BlotAnimator.new b) = Ok a ->
  StronglySorted before (BlotAnimator.animationQueue a) /\
  (BlotAnimator.isAnimating a = false -> BlotAnimator.animationQueue a = []).
Proof.
  intros Hr. apply (orderly_run cs (BlotAnimator.new b) a); [|exact Hr].
  split; [constructor | reflexivity].
Qed.

Lemma reachable_orderly_example :
  let b := SDFBlot.new {| SDFBlot.width := 4; SDFBlot.height := 4 |} 0 0 in
  let sa := BlotAnimator.createMorphSequence "idle" "active" 800 in
  let sb := BlotAnimator.createBreathingSequence 0.05 0.8 in
  let sc := BlotAnimator.createMorphSequence "active" "idle" 600 in
  StronglySorted before
    [BlotAnimator.set_priority 7 sc; BlotAnimator.set_priority 2 sb].
Proof.
  cbv zeta.
  apply (reachable_orderly
           [ CallQueueAnimation 0 (BlotAnimator.createMorphSequence "idle" "active" 800) 1;
             CallQueueAnimation 5 (BlotAnimator.createBreathingSequence 0.05 0.8) 2;
             CallQueueAnimation 9 (BlotAnimator.createMorphSequence "active" "idle" 600) 7 ]
           (SDFBlot.new {| SDFBlot.width := 4; SDFBlot.height := 4 |} 0 0)
           {| BlotAnimator.blot := SDFBlot.new {| SDFBlot.width := 4; SDFBlot.height := 4 |} 0 0;
              BlotAnimator.animationQueue :=
                [ BlotAnimator.set_priority 7 (BlotAnimator.createMorphSequence "active" "idle" 600);
                  BlotAnimator.set_priority 2 (BlotAnimator.createBreathingSequence 0.05 0.8) ];
              BlotAnimator.isAnimating := true;
              BlotAnimator.currentSequence :=
                Some (BlotAnimator.set_startTime 0
                        (BlotAnimator.set_priority 1
                           (BlotAnimator.createMorphSequence "idle" "active" 800))) |}
           eq_refl).
Defined.

(** X18: on every sequencer a client can reach from a new one,
    [isAnimating] is true exactly when a sequence is active. *)
Theorem reachable_animating_iff_active
    (cs : list call) (b : SDFBlot.blot) (a : BlotAnimator.animator) :
  run cs (BlotAnimator.new b) = Ok a ->
  (BlotAnimator.isAnimating a = true <-> BlotAnimator.currentSequence a <> None).
Proof.
  intros Hr. apply (consistent_run cs (BlotAnimator.new b) a); [|exact Hr].
  unfold consistent. simpl. split; [discriminate | intros F; contradiction].
Qed.

Lemma reachable_animating_iff_active_example :
  let b := SDFBlot.new {| SDFBlot.width := 4; SDFBlot.height := 4 |} 0 0 in
  let a := BlotAnimator.queueAnimation 0 (BlotAnimator.createBreathingSequence 0.05 0.8) 1
             (BlotAnimator.new b) in
  BlotAnimator.isAnimating a = true <-> BlotAnimator.currentSequence a <> None.
Proof.
  cbv zeta.
  apply (reachable_animating_iff_active
           [ CallQueueAnimation 0 (BlotAnimator.createBreathingSequence 0.05 0.8) 1 ]
           (SDFBlot.new {| SDFBlot.width := 4; SDFBlot.height := 4 |} 0 0)).
  reflexivity.
Defined.

(** X19: sequences enqueued, in any number and with any priorities, behind
    a sequence that is already active are activated, as the queue drains,
    in descending order of priority, and in the order they were enqueued
    among those of one priority: the drained sequences are a permutation
    of the enqueued ones, sorted by priority, that keeps each priority's
    sequences in their order. *)
Theorem drain_order (rs : list request) (a : BlotAnimator.animator) (s0 : BlotAnimator.sequence) :
  BlotAnimator.currentSequence a = Some s0 ->
  BlotAnimator.isAnimating a = true ->
  BlotAnimator.animationQueue a = [] ->
  finite s0 ->
  Forall (fun r => finite (what r)) rs ->
  exists q,
    activations (S (List.length rs)) (enqueue_all rs a)
    = s0 :: schedule (completionTime s0) q /\
    Permutation (map pending rs) q /\
    StronglySorted before q /\
    forall p, of_priority p q = of_priority p (map pending rs).
Proof.
  intros Hc Hb Hq H0 Hrs.
  exists (BlotAnimator.sort (map pending rs)).
  split; [|split; [apply sort_perm | split; [apply sort_sorted | intros p; apply sort_stable]]].
  assert (Hstate : BlotAnimator.currentSequence (enqueue_all rs a) = Some s0 /\
                   BlotAnimator.animationQueue (enqueue_all rs a)
                   = BlotAnimator.sort (map pending rs)).
  { destruct (enqueue_all_busy rs a Hb) as [-> | ->].
    - simpl. rewrite Hq. split; [exact Hc | reflexivity].
    - simpl. split; [exact Hc | exact Hq]. }
  destruct Hstate as [Hc' Hq'].
  replace (List.length rs) with (List.length (BlotAnimator.sort (map pending rs))).
  - apply activations_drain; try assumption.
    apply (Permutation_Forall (sort_perm _)).
    apply Forall_map. apply Forall_impl with (2 := Hrs).
    intros r Hr. apply finite_set_priority, Hr.
  - rewrite <- (Permutation_length (sort_perm _)). apply length_map.
Qed.

Lemma drain_order_example :
  let b := SDFBlot.new {| SDFBlot.width := 4; SDFBlot.height := 4 |} 0 0 in
  let s0 := BlotAnimator.createMorphSequence "idle" "idle" 100 in
  let a := BlotAnimator.queueAnimation 0 s0 0 (BlotAnimator.new b) in
  let rs := [ {| when := 1; what := BlotAnimator.createMorphSequence "idle" "active" 800;
                 rank := 3 |};
              {| when := 2; what := BlotAnimator.createMorphSequence "active" "idle" 600;
                 rank := 3 |} ] in
  exists q,
    activations 3 (enqueue_all rs a)
    = BlotAnimator.Morph 0 0 100 BlotAnimator.easeOut 0 0
      :: schedule (completionTime (BlotAnimator.Morph 0 0 100 BlotAnimator.easeOut 0 0)) q /\
    Permutation (map pending rs) q /\
    StronglySorted before q /\
    forall p, of_priority p q = of_priority p (map pending rs).
Proof.
  cbv zeta.
  apply (drain_order
           [ {| when := 1; what := BlotAnimator.createMorphSequence "idle" "active" 800;
                rank := 3 |};
             {| when := 2; what := BlotAnimator.createMorphSequence "active" "idle" 600;
                rank := 3 |} ]
           (BlotAnimator.queueAnimation 0 (BlotAnimator.createMorphSequence "idle" "idle" 100) 0
              (BlotAnimator.new (SDFBlot.new {| SDFBlot.width := 4; SDFBlot.height := 4 |} 0 0)))
           (BlotAnimator.Morph 0 0 100 BlotAnimator.easeOut 0 0)
           eq_refl eq_refl eq_refl).
  - split; [reflexivity | simpl; lra].
  - repeat constructor; simpl; lra.
Defined.

(** *** The path a move is given *)

Section MovePlan.

Import BlotAnimator.

Variables (vp : viewport) (random targetX targetY avoidX avoidY duration : R)
          (a : animator).

Lemma square_sum_nonneg (u v : R) : 0 <= u ^ 2 + v ^ 2.
Proof. simpl. nra. Qed.

Lemma detours_dec :
  ltb (sqrt ((avoidX - (SDFBlot.x (blot a))) ^ 2 + (avoidY - (SDFBlot.y (blot a))) ^ 2)) 100
  && gtb (sqrt ((targetX - (SDFBlot.x (blot a))) ^ 2 + (targetY - (SDFBlot.y (blot a))) ^ 2)) 50 = true
  <-> detours (SDFBlot.x (blot a)) (SDFBlot.y (blot a)) targetX targetY avoidX avoidY.
Proof.
  unfold detours, gtb, ltb. rewrite andb_true_iff.
  pose proof (sqrt_lt_square _ 100 (square_sum_nonneg (avoidX - (SDFBlot.x (blot a))) (avoidY - (SDFBlot.y (blot a))))) as Hn.
  pose proof (sqrt_gt_square _ 50 (square_sum_nonneg (targetX - (SDFBlot.x (blot a))) (targetY - (SDFBlot.y (blot a))))) as Hf.
  destruct (Rlt_dec (sqrt ((avoidX - (SDFBlot.x (blot a))) ^ 2 + (avoidY - (SDFBlot.y (blot a))) ^ 2)) 100),
           (Rlt_dec 50 (sqrt ((targetX - (SDFBlot.x (blot a))) ^ 2 + (targetY - (SDFBlot.y (blot a))) ^ 2)));
    split; intros [H1 H2]; try discriminate; try (split; reflexivity).
  - split; [apply Hn | apply Hf]; first [lra | assumption].
  - exfalso. apply n. apply Hf; [lra | exact H2].
  - exfalso. apply n. apply Hn; [lra | exact H1].
  - exfalso. apply n. apply Hn; [lra | exact H1].
Qed.

Lemma createMoveSequence_detour :
  detours (SDFBlot.x (blot a)) (SDFBlot.y (blot a)) targetX targetY avoidX avoidY ->
  createMoveSequence vp random targetX targetY avoidX avoidY duration a
  = Move [ {| px := (SDFBlot.x (blot a)); py := (SDFBlot.y (blot a)) |};
           bounded vp (detourPoint random (SDFBlot.x (blot a)) (SDFBlot.y (blot a)) avoidX avoidY);
           {| px := targetX; py := targetY |} ] duration easeInOut 0 0.
Proof.
  intros H. apply detours_dec in H.
  unfold createMoveSequence. cbv zeta. rewrite H. reflexivity.
Qed.

Lemma createMoveSequence_direct :
  ~ detours (SDFBlot.x (blot a)) (SDFBlot.y (blot a)) targetX targetY avoidX avoidY ->
  createMoveSequence vp random targetX targetY avoidX avoidY duration a
  = Move [ {| px := (SDFBlot.x (blot a)); py := (SDFBlot.y (blot a)) |}; {| px := targetX; py := targetY |} ]
         duration easeInOut 0 0.
Proof.
  intros H. unfold createMoveSequence. cbv zeta.
  destruct (ltb _ 100 && gtb _ 50) eqn:Hd; [|reflexivity].
  exfalso. apply H, detours_dec, Hd.
Qed.

Lemma detours_decidable :
  detours (SDFBlot.x (blot a)) (SDFBlot.y (blot a)) targetX targetY avoidX avoidY
  \/ ~ detours (SDFBlot.x (blot a)) (SDFBlot.y (blot a)) targetX targetY avoidX avoidY.
Proof.
  destruct (ltb (sqrt ((avoidX - (SDFBlot.x (blot a))) ^ 2 + (avoidY - (SDFBlot.y (blot a))) ^ 2)) 100
            && gtb (sqrt ((targetX - (SDFBlot.x (blot a))) ^ 2 + (targetY - (SDFBlot.y (blot a))) ^ 2)) 50) eqn:Hd.
  - left. apply detours_dec, Hd.
  - right. intros H. apply detours_dec in H. rewrite H in Hd. discriminate.
Qed.

Lemma detourPoint_distance :
  distance (detourPoint random (SDFBlot.x (blot a)) (SDFBlot.y (blot a)) avoidX avoidY) {| px := avoidX; py := avoidY |}
  = 120.
Proof.
  unfold distance, detourPoint. cbv zeta. simpl px. simpl py.
  set (t := atan2 _ _ + _).
  apply sqrt_of_square; [lra|].
  pose proof (sin2_cos2 t) as Hsc. unfold Rsqr in Hsc.
  simpl. nra.
Qed.

Lemma detourPoint_near :
  avoidX - 120 <= px (detourPoint random (SDFBlot.x (blot a)) (SDFBlot.y (blot a)) avoidX avoidY) <= avoidX + 120 /\
  avoidY - 120 <= py (detourPoint random (SDFBlot.x (blot a)) (SDFBlot.y (blot a)) avoidX avoidY) <= avoidY + 120.
Proof.
  unfold detourPoint. cbv zeta. simpl px. simpl py.
  set (t := atan2 _ _ + _).
  pose proof (COS_bound t). pose proof (SIN_bound t). lra.
Qed.

Lemma bounded_inside (p : point) :
  60 <= px p <= innerWidth vp - 60 -> 60 <= py p <= innerHeight vp - 60 ->
  bounded vp p = p.
Proof.
  intros Hx Hy. unfold bounded. destruct p as [x y]. simpl in *.
  f_equal; rewrite Rmin_right by lra; apply Rmax_right; lra.
Qed.

Lemma bounded_range (p : point) :
  120 <= innerWidth vp -> 120 <= innerHeight vp ->
  60 <= px (bounded vp p) <= innerWidth vp - 60 /\
  60 <= py (bounded vp p) <= innerHeight vp - 60.
Proof.
  intros Hw Hh. unfold bounded. simpl.
  split; (split; [apply Rmax_l | apply Rmax_lub; [lra | apply Rmin_l]]).
Qed.

End MovePlan.

(** X20: whatever the positions, the window and the random draw,
    [createMoveSequence] returns a move eased by [easeInOut], of the given
    duration, whose waypoints begin at the field's current position and end
    at the target, with one waypoint in between exactly when the pointer is
    less than 100 from the start and the target more than 50, and none
    otherwise. *)
Theorem createMoveSequence_shape
    (vp : BlotAnimator.viewport) (random targetX targetY avoidX avoidY duration : R)
    (a : BlotAnimator.animator) :
  let start := {| BlotAnimator.px := SDFBlot.x (BlotAnimator.blot a);
                  BlotAnimator.py := SDFBlot.y (BlotAnimator.blot a) |} in
  let target := {| BlotAnimator.px := targetX; BlotAnimator.py := targetY |} in
  exists waypoints,
    BlotAnimator.createMoveSequence vp random targetX targetY avoidX avoidY duration a
    = BlotAnimator.Move waypoints duration BlotAnimator.easeInOut 0 0 /\
    hd_error waypoints = Some start /\
    last waypoints start = target /\
    (List.length waypoints = 2%nat \/ List.length waypoints = 3%nat) /\
    (List.length waypoints = 3%nat <->
     detours (SDFBlot.x (BlotAnimator.blot a)) (SDFBlot.y (BlotAnimator.blot a))
             targetX targetY avoidX avoidY).
Proof.
  intros start target.
  destruct (detours_decidable targetX targetY avoidX avoidY a) as [Hd | Hd].
  - rewrite (createMoveSequence_detour vp random targetX targetY avoidX avoidY duration a Hd).
    eexists. split; [reflexivity|].
    split; [reflexivity|]. split; [reflexivity|]. split; [right; reflexivity|].
    split; [intros _; exact Hd | reflexivity].
  - rewrite (createMoveSequence_direct vp random targetX targetY avoidX avoidY duration a Hd).
    eexists. split; [reflexivity|].
    split; [reflexivity|]. split; [reflexivity|]. split; [left; reflexivity|].
    split; [simpl; discriminate | intros H; contradiction].
Qed.

(** X21: in a window at least 120 wide and high, every waypoint
    [createMoveSequence] puts between the start and the target lies at
    least 60 inside each edge of the window. *)
Theorem detour_within_bounds
    (vp : BlotAnimator.viewport) (random targetX targetY avoidX avoidY duration : R)
    (a : BlotAnimator.animator) (start middle target : BlotAnimator.point) :
  120 <= BlotAnimator.innerWidth vp ->
  120 <= BlotAnimator.innerHeight vp ->
  BlotAnimator.createMoveSequence vp random targetX targetY avoidX avoidY duration a
  = BlotAnimator.Move [start; middle; target] duration BlotAnimator.easeInOut 0 0 ->
  60 <= BlotAnimator.px middle <= BlotAnimator.innerWidth vp - 60 /\
  60 <= BlotAnimator.py middle <= BlotAnimator.innerHeight vp - 60.
Proof.
  intros Hw Hh Heq.
  destruct (detours_decidable targetX targetY avoidX avoidY a) as [Hd | Hd].
  - rewrite (createMoveSequence_detour vp random targetX targetY avoidX avoidY duration a Hd)
      in Heq.
    injection Heq as _ <- _. apply bounded_range; assumption.
  - rewrite (createMoveSequence_direct vp random targetX targetY avoidX avoidY duration a Hd)
      in Heq.
    discriminate.
Qed.

Lemma detour_within_bounds_example :
  60 <= 60 <= 1280 - 60 /\ 60 <= 120 <= 720 - 60.
Proof.
  apply (detour_within_bounds
           {| BlotAnimator.innerWidth := 1280; BlotAnimator.innerHeight := 720 |}
           0.75 200 0 50 0 1000
           (BlotAnimator.new (SDFBlot.new {| SDFBlot.width := 4; SDFBlot.height := 4 |} 0 0))
           {| BlotAnimator.px := 0; BlotAnimator.py := 0 |}
           {| BlotAnimator.px := 60; BlotAnimator.py := 120 |}
           {| BlotAnimator.px := 200; BlotAnimator.py := 0 |}).
  - simpl. lra.
  - simpl. lra.
  - rewrite detour_waypoints by reflexivity.
    rewrite detour_bounded by (simpl; lra).
    rewrite gtb_true by lra. reflexivity.
Defined.

(** X22: when a detour is taken and the pointer is at least 180 inside
    each edge of the window, the bound does not move the detour: the path
    has three waypoints and the middle one is at distance exactly 120 from
    the pointer. *)
Theorem detour_at_avoid_radius
    (vp : BlotAnimator.viewport) (random targetX targetY avoidX avoidY duration : R)
    (a : BlotAnimator.animator) :
  detours (SDFBlot.x (BlotAnimator.blot a)) (SDFBlot.y (BlotAnimator.blot a))
          targetX targetY avoidX avoidY ->
  180 <= avoidX <= BlotAnimator.innerWidth vp - 180 ->
  180 <= avoidY <= BlotAnimator.innerHeight vp - 180 ->
  exists middle,
    BlotAnimator.createMoveSequence vp random targetX targetY avoidX avoidY duration a
    = BlotAnimator.Move
        [ {| BlotAnimator.px := SDFBlot.x (BlotAnimator.blot a);
             BlotAnimator.py := SDFBlot.y (BlotAnimator.blot a) |};
          middle;
          {| BlotAnimator.px := targetX; BlotAnimator.py := targetY |} ]
        duration BlotAnimator.easeInOut 0 0 /\
    distance middle {| BlotAnimator.px := avoidX; BlotAnimator.py := avoidY |} = 120.
Proof.
  intros Hd Hx Hy.
  rewrite (createMoveSequence_detour vp random targetX targetY avoidX avoidY duration a Hd).
  destruct (detourPoint_near random avoidX avoidY a) as [Hpx Hpy].
  rewrite bounded_inside by lra.
  eexists. split; [reflexivity|]. apply detourPoint_distance.
Qed.

Lemma detour_at_avoid_radius_example :
  let a := BlotAnimator.new (SDFBlot.new {| SDFBlot.width := 4; SDFBlot.height := 4 |} 300 300) in
  let vp := {| BlotAnimator.innerWidth := 1280; BlotAnimator.innerHeight := 720 |} in
  exists middle,
    BlotAnimator.createMoveSequence vp 0.75 600 300 350 300 1000 a
    = BlotAnimator.Move [ {| BlotAnimator.px := 300; BlotAnimator.py := 300 |}; middle;
                          {| BlotAnimator.px := 600; BlotAnimator.py := 300 |} ]
                        1000 BlotAnimator.easeInOut 0 0 /\
    distance middle {| BlotAnimator.px := 350; BlotAnimator.py := 300 |} = 120.
Proof.
  cbv zeta.
  apply (detour_at_avoid_radius
           {| BlotAnimator.innerWidth := 1280; BlotAnimator.innerHeight := 720 |}
           0.75 600 300 350 300 1000
           (BlotAnimator.new (SDFBlot.new {| SDFBlot.width := 4; SDFBlot.height := 4 |} 300 300))).
  - unfold detours. simpl. lra.
  - simpl. lra.
  - simpl. lra.
Defined.

(** *** A morph from start to end *)

Section MorphRun.

Import BlotAnimator.



Lemma progress_running (now start duration : R) :
  0 < duration -> now < start + duration -> Rmin ((now - start) / duration) 1 < 1.
Proof.
  intros Hd Hn. apply Rle_lt_trans with ((now - start) / duration); [apply Rmin_l|].
  apply Rmult_lt_reg_r with duration; [exact Hd|].
  unfold Rdiv. rewrite Rmult_assoc, Rinv_l by lra. lra.
Qed.


End MorphRun.

(** X23: an active morph of positive duration is kept by every [update]
    before its start time plus its duration, queue and all, and is retired
    by the first [update] at or after that instant: that update leaves the
    morph factor at exactly the end value and promotes the head of the
    queue, with the clock reading as its start time, or leaves the
    sequencer idle if the queue is empty. *)
Theorem morph_runs_its_duration
    (deltaTime now : R) (a : BlotAnimator.animator)
    (fromValue toValue duration : R) (e : BlotAnimator.easing) (start : R) (prio : Z) :
  BlotAnimator.currentSequence a
    = Some (BlotAnimator.Morph fromValue toValue duration e start prio) ->
  0 < duration ->
  exists a',
    BlotAnimator.update deltaTime now a = Ok a' /\
    (now < start + duration ->
     BlotAnimator.currentSequence a' = BlotAnimator.currentSequence a /\
     BlotAnimator.animationQueue a' = BlotAnimator.animationQueue a /\
     BlotAnimator.isAnimating a' = BlotAnimator.isAnimating a) /\
    (start + duration <= now ->
     SDFBlot.morphFactor (BlotAnimator.blot a') = toValue /\
     BlotAnimator.currentSequence a'
       = option_map (BlotAnimator.set_startTime now) (hd_error (BlotAnimator.animationQueue a)) /\
     BlotAnimator.animationQueue a' = tl (BlotAnimator.animationQueue a) /\
     BlotAnimator.isAnimating a'
       = match BlotAnimator.animationQueue a with [] => false | _ :: _ => true end).
Proof.
  intros Hc Hd. unfold BlotAnimator.update. rewrite Hc.
  eexists. split; [reflexivity|]. split.
  - intros Hn. rewrite geb_false by (apply progress_running; assumption).
    unfold BlotAnimator.finish. simpl. rewrite Hc. repeat split.
  - intros Hn. rewrite progress_complete by assumption.
    rewrite easing_at_1, geb_true by lra.
    unfold BlotAnimator.finish, BlotAnimator.retire, BlotAnimator.playNextAnimation.
    simpl. destruct (BlotAnimator.animationQueue a); simpl; repeat split; ring.
Qed.

Lemma morph_runs_its_duration_example :
  let b := SDFBlot.new {| SDFBlot.width := 4; SDFBlot.height := 4 |} 0 0 in
  let morph := BlotAnimator.createMorphSequence "idle" "active" 800 in
  let a := BlotAnimator.queueAnimation 100 morph 1 (BlotAnimator.new b) in
  exists a',
    BlotAnimator.update 16 900 a = Ok a' /\
    SDFBlot.morphFactor (BlotAnimator.blot a') = 0.3 /\
    BlotAnimator.currentSequence a' = None /\
    BlotAnimator.isAnimating a' = false.
Proof.
  cbv zeta.
  destruct (morph_runs_its_duration 16 900
              (BlotAnimator.queueAnimation 100
                 (BlotAnimator.createMorphSequence "idle" "active" 800) 1
                 (BlotAnimator.new
                    (SDFBlot.new {| SDFBlot.width := 4; SDFBlot.height := 4 |} 0 0)))
              0 0.3 800 BlotAnimator.easeOut 100 1 eq_refl)
    as [a' [Hr [_ Hend]]]; [lra|].
  destruct Hend as [Hm [Hc [_ Hb]]]; [lra|].
  exists a'. repeat split; assumption.
Defined.



(** *** Stopping *)

(** X25: [emergencyStop] leaves the field as it is and the sequencer with
    nothing active and nothing queued; after it, any number of sequencer
    updates, at any clock readings, change nothing at all, and stopping
    again changes nothing. *)
Theorem emergencyStop_halts (fs : list frame) (a : BlotAnimator.animator) :
  BlotAnimator.blot (BlotAnimator.emergencyStop a) = BlotAnimator.blot a /\
  run (map (fun f => CallSequencerUpdate (deltaTime f) (now f)) fs)
      (BlotAnimator.emergencyStop a)
  = Ok (BlotAnimator.emergencyStop a) /\
  BlotAnimator.emergencyStop (BlotAnimator.emergencyStop a) = BlotAnimator.emergencyStop a /\
  BlotAnimator.isMoving (BlotAnimator.emergencyStop a) = false.
Proof.
  split; [reflexivity|]. split; [|split; reflexivity].
  induction fs as [|f fs IH]; [reflexivity|].
  simpl. exact IH.
Qed.

(** *** Transitions that settle *)

Section Settling.

Import BlotAnimator.




End Settling.


